(** * mlpack [core/math/random.hpp]: the distinct-sample selector

    A shallow embedding of [RandomSeed], [RandInt] and
    [ObtainDistinctSamples], with the properties of the sampler stated
    over it.

    - [size_t] and [arma::uword] are 64-bit unsigned integers, [int] is a
      32-bit signed integer: values are [Z], conversions and wrap-around
      are written out.
    - [double] is IEEE 754 binary64, modelled by the Standard Library's
      [spec_float] with [prec = 53] and [emax = 1024].
    - [std::mt19937] and [std::uniform_real_distribution<>] belong to the
      C++ standard library; they are an interface here ([UniformEngine]).
    - An access outside an array is undefined behaviour in the source; the
      model stops with [None] there. *)

From Stdlib Require Import ZArith Lia Bool List SpecFloat.
From stdpp Require Import base option list sorting.

Local Open Scope Z_scope.

(** ** Machine integers *)

Definition SIZE_MODULUS : Z := 2 ^ 64.
Definition INT_MIN : Z := - 2 ^ 31.
Definition INT_MAX : Z := 2 ^ 31 - 1.

(** A value stored in a [size_t] (or [arma::uword]). *)
Definition to_size_t (z : Z) : Z := z mod SIZE_MODULUS.

(** The implicit conversion of a [size_t] to [int], as at the call
    [RandInt(samplesRangeSize)]: reduction modulo [2^32] into the signed
    range. *)
Definition to_int (z : Z) : Z := (z + 2 ^ 31) mod 2 ^ 32 - 2 ^ 31.

(** [(uint32_t) seed]. *)
Definition to_uint32 (z : Z) : Z := z mod 2 ^ 32.

Definition is_size_t (z : Z) : Prop := 0 <= z < SIZE_MODULUS.

(** ** Doubles *)

Definition prec : Z := 53.
Definition emax : Z := 1024.

Definition double : Type := spec_float.

(** [(double) h] for an [int] [h]: exact, since [|h| <= 2^31 < 2^53]. *)
Definition double_of_int (h : Z) : double := binary_normalize prec emax h 0 false.

(** The product of two doubles, rounded to nearest, ties to even. *)
Definition double_mul (x y : double) : double := SFmul prec emax x y.

(** The sum and the difference of two doubles, rounded to nearest, and
    the comparison [x < y] (false when either is a NaN). *)
Definition double_add (x y : double) : double := SFadd prec emax x y.
Definition double_sub (x y : double) : double := SFsub prec emax x y.
Definition double_lt (x y : double) : bool := SFltb x y.

(** [(int) std::floor(x)]: the largest integer not above [x]; the
    conversion is undefined when [x] is not finite or the integer does not
    fit an [int]. *)
Definition floor_to_int (x : double) : option Z :=
  match x with
  | S754_zero _ => Some 0
  | S754_finite s m e =>
      let z := Z.shiftl (cond_Zopp s (Zpos m)) e in
      if (INT_MIN <=? z) && (z <=? INT_MAX) then Some z else None
  | _ => None
  end.

(** What [std::uniform_real_distribution<>(0.0, 1.0)] may return: a valid
    double [u] with [0 <= u < 1]. *)
Definition in_unit_interval (u : double) : bool :=
  match u with
  | S754_zero _ => true
  | S754_finite false m e =>
      bounded prec emax m e && (e <? 0) && (Zpos m <? 2 ^ (- e))
  | _ => false
  end.

(** A valid double that is at least one, infinity included. *)
Definition at_least_one (x : double) : bool :=
  match x with
  | S754_infinity false => true
  | S754_finite false m e =>
      bounded prec emax m e && ((0 <=? e) || (2 ^ (- e) <=? Zpos m))
  | _ => false
  end.

(** A double that is not above zero, or is not a number. *)
Definition not_positive (x : double) : bool :=
  match x with
  | S754_zero _ | S754_infinity true | S754_finite true _ _ | S754_nan => true
  | _ => false
  end.

(** ** The random engine and the process-wide state *)

(** [std::mt19937] with [std::uniform_real_distribution<>(0.0, 1.0)] drawn
    from it. [engine_seed s] is the state after [randGen.seed(s)];
    [uniform_real g] is [randUniformDist(randGen)] in state [g]: the double
    drawn and the state the engine is left in. The distribution object
    keeps no state of its own. *)
Class UniformEngine : Type := {
  engine : Type;
  engine_seed : Z -> engine;
  uniform_real : engine -> double * engine
}.

(** The contract of the distribution: every double drawn is in [[0, 1)]. *)
Class UnitUniform (E : UniformEngine) : Prop :=
  uniform_real_unit : forall g : engine, in_unit_interval (fst (uniform_real g)) = true.

(** The global objects the functions of the file read and write:
    [randGen], the seed given to the C library's [srand], and the seed
    given to [arma::arma_rng::set_seed]. *)
Record globals `{UniformEngine} : Type := Globals {
  randGen : engine;
  libc_seed : Z;
  arma_seed : Z
}.

(** The build configuration [RandomSeed] depends on:
    [binding_test] is [defined(BINDING_TYPE) && BINDING_TYPE == BINDING_TYPE_TEST],
    [binding_R] is [BINDING_TYPE == BINDING_TYPE_R]. *)
Record build : Type := Build {
  binding_test : bool;
  binding_R : bool
}.

Section Random.
Context `{E : UniformEngine}.

(** [randGen] advanced by one draw. *)
Definition advance (g : engine) : engine := snd (uniform_real g).

Definition with_randGen (g : engine) (w : globals) : globals :=
  {| randGen := g; libc_seed := libc_seed w; arma_seed := arma_seed w |}.

(** [RandomSeed(seed)]. *)
Definition RandomSeed (b : build) (seed : Z) (w : globals) : globals :=
  if negb (binding_test b) then
    {| randGen := engine_seed (to_uint32 seed);
       libc_seed := if binding_R b then libc_seed w else to_uint32 seed;
       arma_seed := seed |}
  else w.

(** [Random()]. *)
Definition Random (w : globals) : double * globals :=
  let '(u, g) := uniform_real (randGen w) in (u, with_randGen g w).

(** [RandInt(hiExclusive)], [hiExclusive] an [int]. *)
Definition RandInt (hiExclusive : Z) (w : globals) : option (Z * globals) :=
  let '(u, g) := uniform_real (randGen w) in
  v ← floor_to_int (double_mul (double_of_int hiExclusive) u);
  Some (v, with_randGen g w).

(** ** Armadillo columns *)

(** [c.zeros(n)]. *)
Definition zeros (n : Z) : list Z := replicate (Z.to_nat n) 0.

(** [c.set_size(n)]: the elements are not initialised. The model keeps
    the elements the vector had and pads with zeros, so that whatever is
    not written afterwards still shows the previous contents. *)
Definition set_size (n : Z) (c : list Z) : list Z :=
  take (Z.to_nat n) c ++ replicate (Z.to_nat n - length c) 0.

(** [c[i]] read without a bounds check. *)
Definition at_ (c : list Z) (i : Z) : option Z := c !! Z.to_nat i.

(** [c[i] = v]. *)
Definition store (c : list Z) (i v : Z) : option (list Z) :=
  _ ← at_ c i; Some (<[Z.to_nat i := v]> c).

(** [c[i]++] on a column of [size_t]. *)
Definition increment (c : list Z) (i : Z) : option (list Z) :=
  x ← at_ c i; store c i (to_size_t (x + 1)).

(** [c > 0]: the column of 0/1 flags. *)
Definition gt_zero (c : list Z) : list Z :=
  (fun x => if 0 <? x then 1 else 0) <$> c.

(** [arma::find(c)]: the indices of the non-zero elements, in increasing
    order; [find_from i c] numbers the elements of [c] from [i]. *)
Fixpoint find_from (i : Z) (c : list Z) : list Z :=
  match c with
  | [] => []
  | x :: c' => if x =? 0 then find_from (i + 1) c' else i :: find_from (i + 1) c'
  end.

Definition find (c : list Z) : list Z := find_from 0 c.

(** [c += k] on a column of [uword]. *)
Definition add_scalar (k : Z) (c : list Z) : list Z :=
  (fun x => to_size_t (x + k)) <$> c.

(** ** Loops *)

(** [for (size_t i = from; i < from + n; ++i) body], the body run in the
    option monad over the loop's state. Both loops of the file start at 0
    and stop below a [size_t] bound, so the counter never wraps. *)
Fixpoint for_loop {S : Type} (n : nat) (i : Z) (body : Z -> S -> option S) (s : S)
  : option S :=
  match n with
  | O => Some s
  | Datatypes.S n' => s' ← body i s; for_loop n' (i + 1) body s'
  end.

(** ** ObtainDistinctSamples *)

(** One turn of the sparse loop: [samples[(size_t) RandInt(samplesRangeSize)]++].
    The argument is converted to [int], the result back to [size_t]. *)
Definition throw (samplesRangeSize : Z) (i : Z) (s : list Z * globals)
  : option (list Z * globals) :=
  let '(samples, w) := s in
  '(r, w') ← RandInt (to_int samplesRangeSize) w;
  samples' ← increment samples (to_size_t r);
  Some (samples', w').

(** One turn of the dense loop: [distinctSamples[i] = loInclusive + i]. *)
Definition fill (loInclusive : Z) (i : Z) (distinctSamples : list Z)
  : option (list Z) :=
  store distinctSamples i (to_size_t (loInclusive + i)).

Definition ObtainDistinctSamples
    (loInclusive hiExclusive maxNumSamples : Z)
    (distinctSamples : list Z) (w : globals) : option (list Z * globals) :=
  let samplesRangeSize := to_size_t (hiExclusive - loInclusive) in
  if maxNumSamples <? samplesRangeSize then
    let samples := zeros samplesRangeSize in
    '(samples, w) ← for_loop (Z.to_nat maxNumSamples) 0
                      (throw samplesRangeSize) (samples, w);
    let distinctSamples := find (gt_zero samples) in
    let distinctSamples :=
      if 0 <? loInclusive then add_scalar loInclusive distinctSamples
      else distinctSamples in
    Some (distinctSamples, w)
  else
    let distinctSamples := set_size samplesRangeSize distinctSamples in
    distinctSamples ← for_loop (Z.to_nat samplesRangeSize) 0
                        (fill loInclusive) distinctSamples;
    Some (distinctSamples, w).

(** ** The sparse loop taken apart

    Two functions the proofs use to tell what the sparse loop does: the
    calls of [RandInt] it makes, and the increments it performs. Lemma
    [throws_draws] shows the loop is the one followed by the other. *)

(** The values of [k] successive calls [RandInt(h)]. *)
Fixpoint draws (k : nat) (h : Z) (w : globals) : option (list Z * globals) :=
  match k with
  | O => Some ([], w)
  | Datatypes.S k' =>
      '(r, w1) ← RandInt h w;
      '(rs, w2) ← draws k' h w1;
      Some (r :: rs, w2)
  end.

(** The increments [samples[o]++] for the offsets drawn, in order. *)
Fixpoint increments (samples : list Z) (offsets : list Z) : option (list Z) :=
  match offsets with
  | [] => Some samples
  | o :: offsets' => samples' ← increment samples o; increments samples' offsets'
  end.

(** The generator a call leaves behind, put into other globals. *)
Definition regen (w0 : globals) (r : list Z * globals) : list Z * globals :=
  (fst r, with_randGen (randGen (snd r)) w0).

(** ** The sampler as the specification words it

    The sparse regime, told from the offsets that were drawn: a counter per
    offset, incremented at each draw (a repeated offset increments the same
    counter again), and the offsets whose counter is not zero, in ascending
    order, each shifted by [loInclusive]. Counters are unbounded here,
    and the offsets are the values [RandInt] returned. *)

Fixpoint count_throws (counters : list Z) (offsets : list Z) : list Z :=
  match offsets with
  | [] => counters
  | o :: offsets' => count_throws (alter Z.succ (Z.to_nat o) counters) offsets'
  end.

Definition hit (counters : list Z) (o : Z) : bool :=
  match counters !! Z.to_nat o with
  | Some c => negb (c =? 0)
  | None => false
  end.

Definition hit_offsets (counters : list Z) : list Z :=
  List.filter (hit counters) (seqZ 0 (Z.of_nat (length counters))).

Definition sparse_result (loInclusive rangeSize : Z) (offsets : list Z) : list Z :=
  Z.add loInclusive <$> hit_offsets (count_throws (zeros rangeSize) offsets).

(** The sparse regime of the specification at one call: the call makes
    [maxNumSamples] draws, each an offset of [[0, rangeSize)], and returns
    the offsets hit, shifted, leaving the generator where the draws left
    it. *)
Definition sparse_regime_spec
    (loInclusive hiExclusive maxNumSamples : Z)
    (distinctSamples : list Z) (w : globals) : Prop :=
  let rangeSize := hiExclusive - loInclusive in
  exists offsets w',
    draws (Z.to_nat maxNumSamples) (to_int rangeSize) w = Some (offsets, w') /\
    Z.of_nat (length offsets) = maxNumSamples /\
    Forall (fun o => 0 <= o < rangeSize) offsets /\
    ObtainDistinctSamples loInclusive hiExclusive maxNumSamples distinctSamples w
      = Some (sparse_result loInclusive rangeSize offsets, w').

(** The dense regime's result: [loInclusive, ..., hiExclusive - 1]. *)
Definition full_range (loInclusive hiExclusive : Z) : list Z :=
  seqZ loInclusive (hiExclusive - loInclusive).

(** ** The other functions of the file *)

(** The result of an [int] addition or subtraction: signed overflow is
    undefined behaviour. *)
Definition int_result (z : Z) : option Z :=
  if (INT_MIN <=? z) && (z <=? INT_MAX) then Some z else None.

(** [RandInt(lo, hiExclusive)], both [int]. *)
Definition RandIntBetween (lo hiExclusive : Z) (w : globals) : option (Z * globals) :=
  d ← int_result (hiExclusive - lo);
  let '(u, g) := uniform_real (randGen w) in
  v ← floor_to_int (double_mul (double_of_int d) u);
  r ← int_result (lo + v);
  Some (r, with_randGen g w).

(** [Random(lo, hi)]: [lo + (hi - lo) * randUniformDist(randGen)], each
    operation rounded on its own. *)
Definition RandomBetween (lo hi : double) (w : globals) : double * globals :=
  let '(u, g) := uniform_real (randGen w) in
  (double_add lo (double_mul (double_sub hi lo) u), with_randGen g w).

(** [RandBernoulli(input)]: the double 1 or 0. *)
Definition RandBernoulli (input : double) (w : globals) : double * globals :=
  let '(u, w') := Random w in
  (if double_lt u input then double_of_int 1 else double_of_int 0, w').

(** [CustomRandomSeed(seed)], of the test build. *)
Definition CustomRandomSeed (seed : Z) (w : globals) : globals :=
  {| randGen := engine_seed (to_uint32 seed);
     libc_seed := to_uint32 seed;
     arma_seed := seed |}.

(** [FixedRandomSeed()], of the test build. Its [const static size_t seed
    = rand()] is initialised by the first call only: [static_seed] is the
    variable ([None] before the first call) and [rand_value] what [rand()]
    returns if it is called now. The state [rand()] leaves the C library
    in is replaced by [srand] at once. *)
Definition FixedRandomSeed (rand_value : Z) (static_seed : option Z) (w : globals)
  : option Z * globals :=
  let seed := match static_seed with
              | Some s => s
              | None => to_size_t rand_value
              end in
  (Some seed,
   {| randGen := engine_seed (to_uint32 seed);
      libc_seed := to_uint32 seed;
      arma_seed := seed |}).

(** The number of draws a call of [ObtainDistinctSamples] makes. *)
Definition draw_count (loInclusive hiExclusive maxNumSamples : Z) : nat :=
  if maxNumSamples <? to_size_t (hiExclusive - loInclusive)
  then Z.to_nat maxNumSamples else O.

End Random.

(** ** The normal draws *)

(** [std::normal_distribution<>(0.0, 1.0)] drawn from the engine: the
    distribution object keeps a state of its own between calls. *)
Class NormalDistribution `{UniformEngine} : Type := {
  normal_state : Type;
  normal_real : normal_state -> engine -> double * normal_state * engine
}.

(** A zero or a valid finite double. *)
Definition finite_double (x : double) : bool :=
  match x with
  | S754_zero _ => true
  | S754_finite _ m e => bounded prec emax m e
  | _ => false
  end.

(** The contract of the distribution: what is drawn is a finite double. *)
Class FiniteNormal `{UniformEngine} (N : NormalDistribution) : Prop :=
  normal_real_finite :
    forall st (g : engine), finite_double (fst (fst (normal_real st g))) = true.

Section Normal.
Context `{E : UniformEngine} `{N : !NormalDistribution}.

(** [RandNormal()]; the state of [randNormalDist] is passed beside the
    globals. *)
Definition RandNormal (st : normal_state) (w : globals)
  : double * normal_state * globals :=
  let '(z, st', g) := normal_real st (randGen w) in (z, st', with_randGen g w).

(** [RandNormal(mean, variance)]: [variance * randNormalDist(randGen) + mean]. *)
Definition RandNormalWith (mean variance : double) (st : normal_state) (w : globals)
  : double * normal_state * globals :=
  let '(z, st', g) := normal_real st (randGen w) in
  (double_add (double_mul variance z) mean, st', with_randGen g w).

End Normal.

(** ** Rounding, as [binary_round_aux] performs it *)

(** What [k] one-bit shifts leave of [m]: the quotient by [2^k], and a
    round bit that is set only when the remainder is at least half. *)
Definition shifted (m : Z) (k : Z) (mrs : shr_record) : Prop :=
  0 <= shr_m mrs /\
  exists r, m = shr_m mrs * 2 ^ k + r /\ 0 <= r < 2 ^ k /\
            (if shr_r mrs then 2 ^ k <= 2 * r else True).

(** The mantissa and exponent [binary_round_aux] reaches before it tests
    for overflow. *)
Definition round_core (m e : Z) : shr_record * Z :=
  let '(mrs1, e1) := shr_fexp prec emax m e loc_Exact in
  shr_fexp prec emax
    (round_nearest_even (shr_m mrs1) (loc_of_shr_record mrs1)) e1 loc_Exact.

(** The floor of the real number [h * u], the product not being rounded. *)
Definition scaled_floor (h : Z) (u : double) : Z :=
  match u with
  | S754_finite s m e => Z.shiftl (h * cond_Zopp s (Zpos m)) e
  | _ => 0
  end.

(** ** A small engine to run the model on

    A linear congruential generator on 31 bits; the double drawn is the
    state divided by [2^31]. *)
Definition lcg_next (g : Z) : Z := (1103515245 * g + 12345) mod 2 ^ 31.

Definition lcg_real (g : Z) : double :=
  binary_normalize prec emax (g mod 2 ^ 31) (-31) false.

Definition lcg : UniformEngine :=
  {| engine := Z;
     engine_seed := fun s => s;
     uniform_real := fun g => (lcg_real (lcg_next g), lcg_next g) |}.

(** The process-wide state after [RandomSeed(seed)] in a build whose
    binding is neither the test binding nor the R binding. *)
Definition lcg_seeded (seed : Z) : @globals lcg :=
  @RandomSeed lcg (Build false false) seed
    {| randGen := 0 : @engine lcg; libc_seed := 0; arma_seed := 0 |}.

(** A stand-in for the normal distribution on the small engine: the state
    counts the calls, the double drawn is signed, between -4 and 4. *)
Definition lcg_signed (g : Z) : double :=
  binary_normalize prec emax (g mod 2 ^ 31 - 2 ^ 30) (-28) false.

Definition lcg_normal_real (st : nat) (g : @engine lcg)
  : double * nat * @engine lcg :=
  (lcg_signed (lcg_next g), S st, lcg_next g).

Definition lcg_normal : @NormalDistribution lcg :=
  {| normal_state := nat; normal_real := lcg_normal_real |}.

(** * Proofs *)

(** ** Doubles: rounding to nearest never reaches the next integer *)

Lemma fexp_double x : fexp prec emax x = Z.max (x - 53) (-1074).
Proof. reflexivity. Qed.

Lemma digits2_pos_bounds (m : positive) :
  2 ^ (Zpos (digits2_pos m) - 1) <= Zpos m < 2 ^ Zpos (digits2_pos m).
Proof.
  induction m as [m IH|m IH|]; simpl digits2_pos.
  - rewrite Pos2Z.inj_succ, Z.pow_succ_r by lia.
    replace (Z.succ (Zpos (digits2_pos m)) - 1) with (Z.succ (Zpos (digits2_pos m) - 1)) by lia.
    rewrite Z.pow_succ_r by lia. lia.
  - rewrite Pos2Z.inj_succ, Z.pow_succ_r by lia.
    replace (Z.succ (Zpos (digits2_pos m)) - 1) with (Z.succ (Zpos (digits2_pos m) - 1)) by lia.
    rewrite Z.pow_succ_r by lia. lia.
  - simpl. lia.
Qed.

Lemma iter_pos_nat {A : Type} (f : A -> A) (p : positive) (x : A) :
  SpecFloat.iter_pos f p x = Nat.iter (Pos.to_nat p) f x.
Proof.
  revert x. induction p as [p IH|p IH|]; intros x; simpl SpecFloat.iter_pos.
  - rewrite !IH, Pos2Nat.inj_xI. 
    replace (Datatypes.S (2 * Pos.to_nat p)) with (Pos.to_nat p + Datatypes.S (Pos.to_nat p))%nat by lia.
    rewrite Nat.iter_add, Nat.iter_succ_r. reflexivity.
  - rewrite !IH, Pos2Nat.inj_xO.
    replace (2 * Pos.to_nat p)%nat with (Pos.to_nat p + Pos.to_nat p)%nat by lia.
    rewrite Nat.iter_add. reflexivity.
  - reflexivity.
Qed.

Lemma shr_1_shifted m k mrs :
  0 <= k -> shifted m k mrs -> shifted m (k + 1) (shr_1 mrs).
Proof.
  intros Hk [Hm (r & Hr & Hb & _)]. unfold shifted.
  rewrite Z.pow_add_r, Z.pow_1_r by lia.
  destruct mrs as [q b s]; simpl in *.
  destruct q as [|[q|q|]|q]; simpl; try lia; (split; [lia|]).
  - exists r. lia.
  - exists (2 ^ k + r). lia.
  - exists r. lia.
  - exists (2 ^ k + r). lia.
Qed.

Lemma iter_shr_1_shifted m p :
  0 <= m -> shifted m (Zpos p) (SpecFloat.iter_pos shr_1 p (Build_shr_record m false false)).
Proof.
  intros Hm. rewrite iter_pos_nat, <- positive_nat_Z.
  induction (Pos.to_nat p) as [|n IH].
  - simpl. split; [simpl; lia|]. exists 0. simpl. lia.
  - rewrite Nat2Z.inj_succ. simpl Nat.iter. apply shr_1_shifted; [lia | exact IH].
Qed.

Lemma Zdigits2_bounds (m : Z) :
  0 < m -> 0 < Zdigits2 m /\ 2 ^ (Zdigits2 m - 1) <= m < 2 ^ Zdigits2 m.
Proof.
  destruct m as [|p|p]; try lia. intros _. simpl Zdigits2.
  split; [lia | apply digits2_pos_bounds].
Qed.

Lemma shr_fexp_exact m e mrs e' :
  0 <= m ->
  shr_fexp prec emax m e loc_Exact = (mrs, e') ->
  e' = Z.max e (fexp prec emax (Zdigits2 m + e)) /\ shifted m (e' - e) mrs.
Proof.
  intros Hm. unfold shr_fexp, shr. simpl shr_record_of_loc.
  destruct (fexp prec emax (Zdigits2 m + e) - e) as [|p|p] eqn:Hn;
    intros [= <- <-].
  - split; [lia|]. rewrite Z.sub_diag. split; [simpl; lia|].
    exists 0. simpl. lia.
  - split; [lia|]. replace (e + Zpos p - e) with (Zpos p) by lia.
    apply iter_shr_1_shifted, Hm.
  - split; [lia|]. rewrite Z.sub_diag. split; [simpl; lia|].
    exists 0. simpl. lia.
Qed.

Lemma round_nearest_even_shifted m k mrs :
  shifted m k mrs ->
  let m1 := round_nearest_even (shr_m mrs) (loc_of_shr_record mrs) in
  shr_m mrs <= m1 <= shr_m mrs + 1 /\ 2 * (m1 * 2 ^ k) <= 2 * m + 2 ^ k.
Proof.
  intros [Hq (r & Hm & Hr & Hb)].
  destruct mrs as [q b s]; simpl in *.
  assert (0 <= q * 2 ^ k) by (apply Z.mul_nonneg_nonneg; lia).
  destruct b, s; simpl; try destruct (Z.even q); lia.
Qed.

Lemma binary_round_aux_core s m e :
  binary_round_aux prec emax s m e loc_Exact =
  match shr_m (fst (round_core m e)) with
  | Z0 => S754_zero s
  | Zpos m2 =>
      if snd (round_core m e) <=? emax - prec
      then S754_finite s m2 (snd (round_core m e)) else S754_infinity s
  | Zneg _ => S754_nan
  end.
Proof.
  unfold binary_round_aux, round_core.
  destruct (shr_fexp prec emax m e loc_Exact) as [mrs1 e1].
  destruct (shr_fexp prec emax _ e1 loc_Exact) as [mrs2 e2]. reflexivity.
Qed.

Lemma round_core_bound m e mrs2 e2 :
  0 < m ->
  round_core m e = (mrs2, e2) ->
  0 <= shr_m mrs2 /\ e <= e2 /\
  (2 ^ 53 * (shr_m mrs2 * 2 ^ (e2 - e)) <= (2 ^ 53 + 1) * m
   \/ (e2 = -1074 /\ shr_m mrs2 <= 2 ^ 52)).
Proof.
  intros Hm. unfold round_core.
  destruct (shr_fexp prec emax m e loc_Exact) as [mrs1 e1] eqn:H1.
  apply shr_fexp_exact in H1 as [He1 Hs1]; [|lia].
  pose proof (round_nearest_even_shifted _ _ _ Hs1) as Hr. cbv zeta in Hr.
  set (m1 := round_nearest_even (shr_m mrs1) (loc_of_shr_record mrs1)) in *.
  destruct Hs1 as [Hq1 (r1 & Hm1 & Hr1 & _)].
  intros H2. apply shr_fexp_exact in H2 as [He2 Hs2]; [|lia].
  destruct Hs2 as [Hq2 (r2 & Hm2 & Hr2 & _)].
  destruct (Zdigits2_bounds m Hm) as [Hd Hdm].
  set (d := Zdigits2 m) in *. rewrite fexp_double in He1.
  split; [exact Hq2|]. split; [lia|].
  assert (Hn2 : 0 <= e2 - e1) by lia.
  assert (Hn1 : 0 <= e1 - e) by lia.
  assert (Hle : shr_m mrs2 * 2 ^ (e2 - e) <= m1 * 2 ^ (e1 - e)).
  { replace (e2 - e) with ((e2 - e1) + (e1 - e)) by lia.
    rewrite Z.pow_add_r by lia.
    assert (0 < 2 ^ (e1 - e)) by (apply Z.pow_pos_nonneg; lia).
    assert (shr_m mrs2 * 2 ^ (e2 - e1) <= m1) by lia. nia. }
  assert (HP : 0 < 2 ^ (e1 - e)) by (apply Z.pow_pos_nonneg; lia).
  destruct (Z.eq_dec e1 e) as [Heq|Hne].
  { left. replace (e1 - e) with 0 in * by lia. change (2 ^ 0) with 1 in *. lia. }
  destruct (Z.le_gt_cases (-1074) (d + e - 53)) as [Hnorm|Hsub].
  - left. assert (e1 = d + e - 53) by lia.
    assert (2 ^ (e1 - e) * 2 ^ 52 <= m).
    { rewrite <- Z.pow_add_r by lia.
      replace (e1 - e + 52) with (d - 1) by lia. lia. }
    lia.
  - right. assert (He1' : e1 = -1074) by lia.
    assert (Hm52 : m < 2 ^ (e1 - e) * 2 ^ 52).
    { rewrite <- Z.pow_add_r by lia.
      eapply Z.lt_le_trans; [apply Hdm|]. apply Z.pow_le_mono_r; lia. }
    assert (Hq52 : shr_m mrs1 < 2 ^ 52) by nia.
    assert (Hm1le : m1 <= 2 ^ 52) by lia.
    assert (fexp prec emax (Zdigits2 m1 + e1) = -1074).
    { rewrite fexp_double. destruct (Z.eq_dec m1 0) as [->|Hnz]; [simpl; lia|].
      destruct (Zdigits2_bounds m1) as [Hd1 Hdm1]; [lia|].
      assert (Zdigits2 m1 - 1 < 53).
      { apply (Z.pow_lt_mono_r_iff 2); [lia | lia |].
        eapply Z.le_lt_trans; [apply Hdm1|]. lia. }
      lia. }
    replace (e2 - e1) with 0 in Hm2 by lia.
    change (2 ^ 0) with 1 in Hm2. lia.
Qed.

Lemma binary_round_aux_exact s m e :
  fexp prec emax (Zpos (digits2_pos m) + e) <= e -> e <= emax - prec ->
  binary_round_aux prec emax s (Zpos m) e loc_Exact = S754_finite s m e.
Proof.
  intros Hf He.
  assert (Hs : forall l, shr_fexp prec emax (Zpos m) e l = (shr_record_of_loc (Zpos m) l, e)).
  { intros l. unfold shr_fexp, shr. simpl Zdigits2.
    destruct (fexp prec emax (Zpos (digits2_pos m) + e) - e) eqn:Hn; try reflexivity. lia. }
  unfold binary_round_aux. rewrite Hs. simpl. rewrite Hs. simpl.
  apply Z.leb_le in He. rewrite He. reflexivity.
Qed.

Lemma iter_xO_value (m k : positive) : Zpos (Pos.iter xO m k) = Zpos m * 2 ^ Zpos k.
Proof.
  induction k as [|k IH] using Pos.peano_ind.
  - simpl. lia.
  - rewrite Pos.iter_succ, Pos2Z.inj_succ, Z.pow_succ_r by lia.
    rewrite Pos2Z.inj_xO, IH. lia.
Qed.

Lemma iter_xO_digits (m k : positive) :
  Zpos (digits2_pos (Pos.iter xO m k)) = Zpos (digits2_pos m) + Zpos k.
Proof.
  induction k as [|k IH] using Pos.peano_ind.
  - simpl. lia.
  - rewrite Pos.iter_succ. simpl digits2_pos. lia.
Qed.

(** [binary_normalize] of a small integer mantissa is exact, and the
    double it returns is in canonical form. *)
Lemma binary_normalize_pos h e0 :
  0 < h < 2 ^ 53 -> -1000 <= e0 <= 0 ->
  exists mh eh, binary_normalize prec emax h e0 false = S754_finite false mh eh /\
                eh <= e0 /\ Zpos mh = h * 2 ^ (e0 - eh) /\
                bounded prec emax mh eh = true.
Proof.
  intros Hh He0. destruct h as [|p|p]; try lia.
  unfold binary_normalize, binary_round.
  pose proof (digits2_pos_bounds p) as Hd.
  set (d := Zpos (digits2_pos p)) in *.
  assert (Hd53 : 0 < d <= 53).
  { split; [lia|]. assert (d - 1 < 53); [|lia]. apply (Z.pow_lt_mono_r_iff 2); lia. }
  rewrite fexp_double. unfold shl_align.
  replace (Z.max (d + e0 - 53) (-1074) - e0) with (d - 53) by lia.
  destruct (d - 53) as [|k|k] eqn:Hk; try lia.
  - exists p, e0. rewrite Z.sub_diag.
    split; [|split; [lia|split; [simpl; lia|]]].
    + apply binary_round_aux_exact; [rewrite fexp_double; fold d; lia | unfold emax, prec; lia].
    + unfold bounded, canonical_mantissa. rewrite fexp_double. fold d.
      apply andb_true_intro. split; [apply Z.eqb_eq | apply Z.leb_le; unfold emax, prec]; lia.
  - assert (Z.max (d + e0 - 53) (-1074) = e0 - Zpos k) as -> by lia.
    exists (Pos.iter xO p k), (e0 - Zpos k).
    split; [|split; [lia|split]].
    + apply binary_round_aux_exact; [|unfold emax, prec; lia].
      rewrite fexp_double, iter_xO_digits. fold d. lia.
    + rewrite iter_xO_value. f_equal. f_equal. lia.
    + unfold bounded, canonical_mantissa. rewrite fexp_double, iter_xO_digits. fold d.
      apply andb_true_intro. split; [apply Z.eqb_eq | apply Z.leb_le; unfold emax, prec]; lia.
Qed.

Lemma double_of_int_pos h :
  0 < h < 2 ^ 53 ->
  exists mh eh, double_of_int h = S754_finite false mh eh /\
                eh <= 0 /\ Zpos mh = h * 2 ^ (- eh).
Proof.
  intros Hh. destruct (binary_normalize_pos h 0) as (mh & eh & H & He & Hm & _); [lia..|].
  exists mh, eh. rewrite Z.sub_0_l in Hm. auto.
Qed.

Lemma in_unit_interval_inv u :
  in_unit_interval u = true ->
  (exists s, u = S754_zero s) \/
  exists m e, u = S754_finite false m e /\ e < 0 /\
              Zpos m * 2 ^ 53 <= (2 ^ 53 - 1) * 2 ^ (- e).
Proof.
  destruct u as [s| | |[] m e]; try discriminate; intros H.
  - left. eauto.
  - right. exists m, e. split; [reflexivity|].
    simpl in H. apply andb_prop in H as [H Hlt]. apply andb_prop in H as [Hb He].
    apply Z.ltb_lt in Hlt, He. split; [exact He|].
    unfold bounded in Hb. apply andb_prop in Hb as [Hc _].
    unfold canonical_mantissa in Hc. apply Z.eqb_eq in Hc. rewrite fexp_double in Hc.
    pose proof (digits2_pos_bounds m) as Hd.
    assert (Hm53 : Zpos m < 2 ^ 53).
    { eapply Z.lt_le_trans; [apply Hd|]. apply Z.pow_le_mono_r; lia. }
    destruct (Z.le_gt_cases 53 (- e)) as [Hbig|Hsmall].
    + assert (2 ^ 53 <= 2 ^ (- e)) by (apply Z.pow_le_mono_r; lia). nia.
    + assert (2 ^ (- e) <= 2 ^ 53) by (apply Z.pow_le_mono_r; lia). nia.
Qed.

Lemma scaled_lt (T K h a b mu : Z) :
  0 < T -> 0 < h -> 0 < a -> 0 < b -> 0 <= mu ->
  T * K <= (T + 1) * (h * a * mu) ->
  mu * T <= (T - 1) * b ->
  K < h * (a * b).
Proof.
  intros HT Hh Ha Hb Hmu H1 H2.
  assert (Hha : 0 < h * a) by nia.
  assert (H3 : T * (T * K) <= (T + 1) * (h * a) * ((T - 1) * b)).
  { transitivity (T * ((T + 1) * (h * a * mu))).
    - apply Z.mul_le_mono_nonneg_l; lia.
    - replace (T * ((T + 1) * (h * a * mu))) with ((T + 1) * (h * a) * (mu * T)) by ring.
      apply Z.mul_le_mono_nonneg_l; nia. }
  assert (H4 : (T + 1) * (h * a) * ((T - 1) * b) < T * (T * (h * (a * b)))).
  { assert (0 < h * a * b) by nia.
    replace ((T + 1) * (h * a) * ((T - 1) * b)) with (T * T * (h * a * b) - h * a * b) by ring.
    replace (T * (T * (h * (a * b)))) with (T * T * (h * a * b)) by ring. lia. }
  assert (H5 : T * (T * K) < T * (T * (h * (a * b)))) by lia.
  apply Z.mul_lt_mono_pos_l in H5; [|lia].
  apply Z.mul_lt_mono_pos_l in H5; [|lia]. exact H5.
Qed.

Lemma floor_mul_range h u :
  0 < h <= INT_MAX -> in_unit_interval u = true ->
  exists v, floor_to_int (double_mul (double_of_int h) u) = Some v /\ 0 <= v < h.
Proof.
  intros Hh Hu. unfold INT_MAX in Hh.
  destruct (double_of_int_pos h) as (mh & eh & -> & Heh & Hmh); [lia|].
  apply in_unit_interval_inv in Hu as [[s ->]|(mu & eu & -> & Heu & Hmu)].
  { exists 0. simpl. split; [reflexivity | lia]. }
  unfold double_mul, SFmul. simpl xorb. rewrite binary_round_aux_core.
  destruct (round_core (Zpos (mh * mu)) (eh + eu)) as [mrs2 e2] eqn:Hrc.
  apply round_core_bound in Hrc as (Hm2 & He2 & Hb); [|lia].
  simpl fst; simpl snd.
  destruct (shr_m mrs2) as [|m2|m2] eqn:Hsm; [| |lia].
  { exists 0. simpl. split; [reflexivity | lia]. }
  assert (Hz : 0 <= Z.shiftl (Zpos m2) e2 < h /\ e2 <= 971).
  { destruct Hb as [Hb|[-> Hb]].
    - assert (HK : Zpos m2 * 2 ^ (e2 - (eh + eu)) < h * (2 ^ (- eh) * 2 ^ (- eu))).
      { apply (scaled_lt (2 ^ 53) _ _ _ _ (Zpos mu)); try lia;
          try (apply Z.pow_pos_nonneg; lia).
        all: rewrite <- Hmh, <- Pos2Z.inj_mul; exact Hb. }
      rewrite <- Z.pow_add_r in HK by lia.
      destruct (Z.le_gt_cases 0 e2) as [Hpos|Hneg].
      + rewrite Z.shiftl_mul_pow2 by lia.
        replace (e2 - (eh + eu)) with (e2 + (- eh + - eu)) in HK by lia.
        rewrite Z.pow_add_r, Z.mul_assoc in HK by lia.
        assert (0 < 2 ^ (- eh + - eu)) by (apply Z.pow_pos_nonneg; lia).
        assert (0 < 2 ^ e2) by (apply Z.pow_pos_nonneg; lia).
        assert (Hlt : Zpos m2 * 2 ^ e2 < h) by nia.
        split; [nia|].
        assert (e2 < 31); [|lia]. apply (Z.pow_lt_mono_r_iff 2); [lia | lia | nia].
      + rewrite <- (Z.opp_involutive e2) at 1 2.
        rewrite Z.shiftl_opp_r, Z.shiftr_div_pow2 by lia.
        split; [|lia].
        assert (0 < 2 ^ (- e2)) by (apply Z.pow_pos_nonneg; lia).
        split; [apply Z.div_pos; lia|].
        apply Z.div_lt_upper_bound; [lia|].
        replace (- eh + - eu) with (- e2 + (e2 - (eh + eu))) in HK by lia.
        rewrite Z.pow_add_r in HK by lia.
        assert (0 < 2 ^ (e2 - (eh + eu))) by (apply Z.pow_pos_nonneg; lia).
        nia.
    - split; [|lia]. change (Z.shiftl (Zpos m2) (-1074)) with (Z.shiftr (Zpos m2) 1074).
      rewrite Z.shiftr_div_pow2 by lia.
      rewrite Z.div_small; [lia|]. split; [lia|].
      eapply Z.le_lt_trans; [apply Hb|]. apply Z.pow_lt_mono_r; lia. }
  destruct Hz as [Hz He971].
  exists (Z.shiftl (Zpos m2) e2). split; [|exact Hz].
  replace (e2 <=? emax - prec) with true
    by (symmetry; apply Z.leb_le; unfold emax, prec; lia).
  unfold floor_to_int. simpl cond_Zopp. cbv zeta.
  replace (INT_MIN <=? Z.shiftl (Zpos m2) e2) with true
    by (symmetry; apply Z.leb_le; unfold INT_MIN; lia).
  replace (Z.shiftl (Zpos m2) e2 <=? INT_MAX) with true
    by (symmetry; apply Z.leb_le; unfold INT_MAX; lia).
  reflexivity.
Qed.


Lemma lcg_real_unit g : in_unit_interval (lcg_real g) = true.
Proof.
  unfold lcg_real. pose proof (Z.mod_pos_bound g (2 ^ 31) ltac:(lia)) as Hg.
  destruct (Z.eq_dec (g mod 2 ^ 31) 0) as [->|Hnz]; [reflexivity|].
  destruct (binary_normalize_pos (g mod 2 ^ 31) (-31)) as (m & e & -> & He & Hm & Hb);
    [lia..|].
  simpl. rewrite Hb. simpl.
  apply andb_true_intro. split; [apply Z.ltb_lt; lia|]. apply Z.ltb_lt.
  rewrite Hm. replace (- e) with (31 + (-31 - e)) by lia.
  rewrite Z.pow_add_r by lia.
  assert (0 < 2 ^ (-31 - e)) by (apply Z.pow_pos_nonneg; lia). nia.
Qed.

Lemma lcg_unit : UnitUniform lcg.
Proof. intros g. apply lcg_real_unit. Qed.

(** Rounding is visible: three times the double nearest to one third is
    exactly one, so the floor is 1 although the real product is below 1. *)
Example three_thirds :
  in_unit_interval (S754_finite false 6004799503160661 (-54)) = true /\
  floor_to_int (double_mul (double_of_int 3) (S754_finite false 6004799503160661 (-54)))
  = Some 1.
Proof. split; reflexivity. Qed.

(** The floor of a negative product is taken downwards. *)
Example floor_negative :
  floor_to_int (double_mul (double_of_int (-3)) (S754_finite false 4503599627370496 (-54)))
  = Some (-1).
Proof. reflexivity. Qed.

Example six_draws_of_8 :
  fst <$> @draws lcg 6 8 (lcg_seeded 1) = Some [4; 1; 2; 4; 7; 1].
Proof. reflexivity. Qed.

Example dense_5_8 :
  @ObtainDistinctSamples lcg 5 8 10 [] (lcg_seeded 42) = Some ([5; 6; 7], lcg_seeded 42).
Proof. reflexivity. Qed.

Example no_samples :
  @ObtainDistinctSamples lcg 0 100 0 [1; 2] (lcg_seeded 42) = Some ([], lcg_seeded 42).
Proof. reflexivity. Qed.

Example sparse_6_of_8 :
  fst <$> @ObtainDistinctSamples lcg 10 18 6 [] (lcg_seeded 1) = Some [11; 12; 14; 17].
Proof. vm_compute. reflexivity. Qed.

(** ** The generator *)

Section Generator.
Context `{E : UniformEngine}.

Lemma with_randGen_id (w : globals) : with_randGen (randGen w) w = w.
Proof. destruct w; reflexivity. Qed.

Lemma with_randGen_twice g1 g2 (w : globals) :
  with_randGen g2 (with_randGen g1 w) = with_randGen g2 w.
Proof. reflexivity. Qed.

Lemma RandInt_inv h (w : globals) v w' :
  RandInt h w = Some (v, w') ->
  w' = with_randGen (advance (randGen w)) w /\
  floor_to_int (double_mul (double_of_int h) (fst (uniform_real (randGen w)))) = Some v.
Proof.
  unfold RandInt, advance. destruct (uniform_real (randGen w)) as [u g]. simpl.
  destruct (floor_to_int _) as [z|]; simpl; [|discriminate].
  intros [= <- <-]. auto.
Qed.

Lemma RandInt_range `{!UnitUniform E} h (w : globals) :
  0 < h <= INT_MAX ->
  exists v, RandInt h w = Some (v, with_randGen (advance (randGen w)) w) /\ 0 <= v < h.
Proof.
  intros Hh. pose proof (uniform_real_unit (randGen w)) as Hu.
  unfold RandInt, advance. destruct (uniform_real (randGen w)) as [u g]. simpl in *.
  destruct (floor_mul_range h u Hh Hu) as (v & -> & Hv). exists v. auto.
Qed.

Lemma draws_inv k h (w : globals) rs w' :
  draws k h w = Some (rs, w') ->
  length rs = k /\ w' = with_randGen (Nat.iter k advance (randGen w)) w.
Proof.
  revert w rs w'. induction k as [|k IH]; intros w rs w'; simpl.
  - intros [= <- <-]. split; [reflexivity | symmetry; apply with_randGen_id].
  - destruct (RandInt h w) as [[r w1]|] eqn:Hr; simpl; [|discriminate].
    destruct (draws k h w1) as [[rs' w2]|] eqn:Hd; simpl; [|discriminate].
    intros [= <- <-]. apply RandInt_inv in Hr as [-> _].
    apply IH in Hd as [<- ->]. split; [reflexivity|].
    simpl randGen. rewrite <- Nat.iter_succ_r. reflexivity.
Qed.

Lemma draws_total `{!UnitUniform E} k h (w : globals) :
  0 < h <= INT_MAX ->
  exists rs, draws k h w = Some (rs, with_randGen (Nat.iter k advance (randGen w)) w) /\
             length rs = k /\ Forall (fun r => 0 <= r < h) rs.
Proof.
  intros Hh. revert w. induction k as [|k IH]; intros w.
  - exists []. simpl. rewrite with_randGen_id. auto.
  - destruct (RandInt_range h w Hh) as (r & Hr & Hrange).
    destruct (IH (with_randGen (advance (randGen w)) w)) as (rs & Hd & Hlen & Hall).
    exists (r :: rs). simpl. rewrite Hr. simpl. rewrite Hd. simpl.
    rewrite <- Nat.iter_succ_r. split; [reflexivity|]. split; [lia|]. constructor; auto.
Qed.

(** The sparse loop draws first and increments second at each turn; as a
    whole it is the draws followed by the increments. *)
Lemma throws_draws k i n c (w : globals) :
  for_loop k i (throw n) (c, w) =
  '(rs, w') ← draws k (to_int n) w;
  c' ← increments c (to_size_t <$> rs);
  Some (c', w').
Proof.
  revert i c w. induction k as [|k IH]; intros i c w; simpl; [reflexivity|].
  destruct (RandInt (to_int n) w) as [[r w1]|]; simpl; [|reflexivity].
  destruct (increment c (to_size_t r)) as [c1|] eqn:Hc; simpl.
  - rewrite IH. destruct (draws k (to_int n) w1) as [[rs w2]|]; simpl; [|reflexivity].
    rewrite Hc. reflexivity.
  - destruct (draws k (to_int n) w1) as [[rs w2]|]; simpl; [|reflexivity].
    rewrite Hc. reflexivity.
Qed.

End Generator.

(** ** Columns *)

Lemma to_size_t_small z : is_size_t z -> to_size_t z = z.
Proof. intros Hz. apply Z.mod_small, Hz. Qed.

Lemma to_size_t_range z : is_size_t (to_size_t z).
Proof. apply Z.mod_pos_bound. reflexivity. Qed.

Lemma length_zeros n : length (zeros n) = Z.to_nat n.
Proof. apply length_replicate. Qed.

Lemma length_set_size n c : length (set_size n c) = Z.to_nat n.
Proof. unfold set_size. rewrite length_app, length_take, length_replicate. lia. Qed.

Lemma store_Some c i v :
  (Z.to_nat i < length c)%nat -> store c i v = Some (<[Z.to_nat i := v]> c).
Proof.
  intros Hi. unfold store, at_.
  destruct (lookup_lt_is_Some_2 c (Z.to_nat i) Hi) as [x ->]. reflexivity.
Qed.

Lemma store_None c i v : (length c <= Z.to_nat i)%nat -> store c i v = None.
Proof. intros Hi. unfold store, at_. rewrite (lookup_ge_None_2 c _ Hi). reflexivity. Qed.

Lemma increment_None c i : (length c <= Z.to_nat i)%nat -> increment c i = None.
Proof. intros Hi. unfold increment, at_. rewrite (lookup_ge_None_2 c _ Hi). reflexivity. Qed.

(** While no counter can reach [2^64], an increment adds one. *)
Lemma increment_succ c i :
  (Z.to_nat i < length c)%nat ->
  Forall (fun x => 0 <= x /\ x + 1 < SIZE_MODULUS) c ->
  increment c i = Some (alter Z.succ (Z.to_nat i) c).
Proof.
  intros Hi Hc. unfold increment. unfold at_ at 1.
  destruct (lookup_lt_is_Some_2 c (Z.to_nat i) Hi) as [x Hx]. rewrite Hx. simpl.
  rewrite store_Some by exact Hi. f_equal.
  pose proof (proj1 (Forall_lookup _ _) Hc _ _ Hx) as Hb. simpl in Hb.
  rewrite to_size_t_small by (unfold is_size_t; lia).
  apply list_eq. intros j. rewrite list_lookup_insert, list_lookup_alter.
  destruct (decide (Z.to_nat i = j)) as [<-|Hne].
  - rewrite decide_True by auto. rewrite Hx. reflexivity.
  - rewrite decide_False by tauto. reflexivity.
Qed.

Lemma length_count_throws c offs : length (count_throws c offs) = length c.
Proof.
  revert c. induction offs as [|o offs IH]; intros c; simpl; [reflexivity|].
  rewrite IH. apply length_alter.
Qed.

Lemma count_throws_nonneg c offs :
  Forall (Z.le 0) c -> Forall (Z.le 0) (count_throws c offs).
Proof.
  revert c. induction offs as [|o offs IH]; intros c Hc; simpl; [exact Hc|].
  apply IH, Forall_alter; [exact Hc|]. intros x _ Hx. lia.
Qed.

(** The loop of increments, on counters with room for every increment, is
    the unbounded count as long as each offset is inside the column. *)
Lemma increments_eq c offs :
  Forall (fun x => 0 <= x /\ x + Z.of_nat (length offs) < SIZE_MODULUS) c ->
  Forall (Z.le 0) offs ->
  increments c offs =
  if forallb (fun o => o <? Z.of_nat (length c)) offs
  then Some (count_throws c offs) else None.
Proof.
  revert c. induction offs as [|o offs IH]; intros c Hc Hoffs; [reflexivity|].
  apply Forall_cons in Hoffs as [Ho Hoffs].
  assert (Hc' : Forall (fun x => 0 <= x /\ x + 1 + Z.of_nat (length offs) < SIZE_MODULUS) c).
  { eapply Forall_impl; [exact Hc|]. cbv beta. intros x Hx.
    change (length (o :: offs)) with (S (length offs)) in Hx. lia. }
  clear Hc. cbn [increments forallb].
  destruct (Z.ltb_spec o (Z.of_nat (length c))) as [Hlt|Hge]; cbn [andb].
  - rewrite increment_succ; [cbn [mbind option_bind]| lia |].
    + rewrite IH; [rewrite length_alter; reflexivity| |exact Hoffs].
      apply Forall_lookup. intros j y Hy. rewrite list_lookup_alter in Hy.
      case_decide;
        [destruct (c !! Z.to_nat o) as [x|] eqn:Hx | destruct (c !! j) as [x|] eqn:Hx];
        simpl in Hy; try discriminate; injection Hy as <-;
        pose proof (proj1 (Forall_lookup _ _) Hc' _ _ Hx) as Hb; cbv beta in Hb; lia.
    + eapply Forall_impl; [exact Hc'|]. cbv beta. lia.
  - rewrite increment_None by lia. reflexivity.
Qed.

Lemma hit_alter_succ c a o :
  Forall (Z.le 0) c -> 0 <= a -> 0 <= o < Z.of_nat (length c) ->
  hit (alter Z.succ (Z.to_nat a) c) o = hit c o || (o =? a).
Proof.
  intros Hc Ha Ho. unfold hit. rewrite list_lookup_alter.
  destruct (lookup_lt_is_Some_2 c (Z.to_nat o)) as [x Hx]; [lia|].
  pose proof (proj1 (Forall_lookup _ _) Hc _ _ Hx) as Hx0. simpl in Hx0.
  destruct (decide (Z.to_nat a = Z.to_nat o)) as [Heq|Hne].
  - rewrite Heq, Hx. simpl. replace (o =? a) with true by (symmetry; apply Z.eqb_eq; lia).
    rewrite orb_true_r. destruct (Z.eqb_spec (Z.succ x) 0); [lia | reflexivity].
  - rewrite Hx. replace (o =? a) with false by (symmetry; apply Z.eqb_neq; lia).
    rewrite orb_false_r. reflexivity.
Qed.

(** A counter is non-zero after the throws exactly when it was before or
    its offset was drawn. *)
Lemma hit_count_throws c offs o :
  Forall (Z.le 0) c -> Forall (Z.le 0) offs -> 0 <= o < Z.of_nat (length c) ->
  hit (count_throws c offs) o = hit c o || existsb (Z.eqb o) offs.
Proof.
  revert c. induction offs as [|a offs IH]; intros c Hc Hoffs Ho; simpl.
  - rewrite orb_false_r. reflexivity.
  - apply Forall_cons in Hoffs as [Ha Hoffs].
    rewrite IH; [| apply Forall_alter; [exact Hc | intros; lia] | exact Hoffs
                 | rewrite length_alter; exact Ho].
    rewrite hit_alter_succ by assumption. rewrite orb_assoc. reflexivity.
Qed.

Lemma hit_zeros n o : hit (zeros n) o = false.
Proof.
  unfold hit, zeros. destruct (replicate (Z.to_nat n) 0 !! Z.to_nat o) as [x|] eqn:Hx;
    [|reflexivity].
  apply lookup_replicate in Hx as [-> _]. reflexivity.
Qed.

(** [arma::find] on the flags of [c > 0] lists the offsets hit. *)
Lemma find_from_hit pre c :
  Forall (Z.le 0) c ->
  find_from (Z.of_nat (length pre)) (gt_zero c) =
  List.filter (hit (pre ++ c)) (seqZ (Z.of_nat (length pre)) (Z.of_nat (length c))).
Proof.
  revert pre. induction c as [|x c IH]; intros pre Hc; [reflexivity|].
  apply Forall_cons in Hc as [Hx Hc].
  rewrite seqZ_cons by (simpl; lia).
  replace (Z.pred (Z.of_nat (length (x :: c)))) with (Z.of_nat (length c))
    by (simpl; lia).
  cbn [List.filter].
  assert (Hhit : hit (pre ++ x :: c) (Z.of_nat (length pre)) = negb (x =? 0)).
  { unfold hit. rewrite Nat2Z.id, list_lookup_middle by reflexivity. reflexivity. }
  rewrite Hhit. specialize (IH (pre ++ [x]) Hc).
  rewrite length_app, <- app_assoc in IH. simpl in IH.
  replace (Z.of_nat (length pre + 1)) with (Z.succ (Z.of_nat (length pre))) in IH by lia.
  simpl. replace (Z.of_nat (length pre) + 1) with (Z.succ (Z.of_nat (length pre))) by lia.
  rewrite IH.
  destruct (Z.ltb_spec 0 x); destruct (Z.eqb_spec x 0); simpl; try lia; reflexivity.
Qed.

Lemma find_gt_zero c : Forall (Z.le 0) c -> find (gt_zero c) = hit_offsets c.
Proof. intros Hc. apply (find_from_hit [] c Hc). Qed.

(** ** The offsets hit: ascending, inside the range, and exactly the draws *)

Lemma StronglySorted_filter {A} (R : A -> A -> Prop) (f : A -> bool) l :
  StronglySorted R l -> StronglySorted R (List.filter f l).
Proof.
  induction 1 as [|a l Hl IH Ha]; simpl; [constructor|].
  destruct (f a); [|exact IH]. constructor; [exact IH|].
  apply List.Forall_forall. intros x Hx. apply filter_In in Hx as [Hx _].
  exact (proj1 (List.Forall_forall _ _) Ha x Hx).
Qed.

Lemma StronglySorted_seqZ m n : StronglySorted Z.lt (seqZ m n).
Proof.
  remember (Z.to_nat n) as k eqn:Hk. revert m n Hk.
  induction k as [|k IH]; intros m n Hk.
  - rewrite seqZ_nil by lia. constructor.
  - rewrite seqZ_cons by lia. constructor; [apply IH; lia|].
    apply Forall_seqZ. intros; lia.
Qed.

Lemma StronglySorted_lt_NoDup l : StronglySorted Z.lt l -> List.NoDup l.
Proof.
  induction 1 as [|a l Hl IH Ha]; constructor; [|exact IH].
  intros Hin. pose proof (proj1 (List.Forall_forall _ _) Ha a Hin). lia.
Qed.

Lemma StronglySorted_add k l :
  StronglySorted Z.lt l -> StronglySorted Z.lt (Z.add k <$> l).
Proof.
  induction 1 as [|a l Hl IH Ha]; simpl; constructor; [exact IH|].
  apply Forall_fmap. eapply Forall_impl; [exact Ha|]. simpl. intros; lia.
Qed.

Lemma In_hit_offsets c o :
  In o (hit_offsets c) <-> 0 <= o < Z.of_nat (length c) /\ hit c o = true.
Proof.
  unfold hit_offsets. rewrite filter_In, <- list_elem_of_In, elem_of_seqZ.
  intuition lia.
Qed.

Lemma In_existsb_eqb o (l : list Z) : existsb (Z.eqb o) l = true <-> In o l.
Proof.
  rewrite existsb_exists. split.
  - intros (x & Hx & Heq). apply Z.eqb_eq in Heq. subst. exact Hx.
  - intros Hin. exists o. split; [exact Hin | apply Z.eqb_refl].
Qed.

Lemma no_In_nil {A} (l : list A) : (forall x, ~ In x l) -> l = [].
Proof. destruct l as [|a l]; [reflexivity|]. intros H. destruct (H a). simpl. auto. Qed.

Section SparseResult.
Variables (lo n : Z) (offs : list Z).
Hypothesis n_nonneg : 0 <= n.
Hypothesis offs_range : Forall (fun o => 0 <= o < n) offs.

Lemma In_sparse_result v :
  In v (sparse_result lo n offs) <-> exists o, In o offs /\ v = lo + o.
Proof.
  unfold sparse_result. rewrite <- list_elem_of_In, list_elem_of_fmap.
  assert (Hz : Forall (Z.le 0) (zeros n)) by (apply Forall_replicate; lia).
  assert (Ho : Forall (Z.le 0) offs)
    by (eapply Forall_impl; [exact offs_range|]; simpl; intros; lia).
  split.
  - intros (o & -> & Hin). exists o. split; [|reflexivity].
    apply list_elem_of_In, In_hit_offsets in Hin as [Hr Hh].
    rewrite length_count_throws in Hr.
    rewrite hit_count_throws, hit_zeros in Hh by assumption.
    apply In_existsb_eqb. exact Hh.
  - intros (o & Hin & ->). exists o. split; [reflexivity|].
    apply list_elem_of_In, In_hit_offsets.
    pose proof (proj1 (List.Forall_forall _ _) offs_range o Hin) as Hr. simpl in Hr.
    rewrite length_count_throws, length_zeros. split; [lia|].
    rewrite hit_count_throws, hit_zeros; [|assumption..|rewrite length_zeros; lia].
    apply In_existsb_eqb. exact Hin.
Qed.

Lemma sparse_result_sorted : StronglySorted Z.lt (sparse_result lo n offs).
Proof.
  apply StronglySorted_add, StronglySorted_filter, StronglySorted_seqZ.
Qed.

Lemma sparse_result_bounds : Forall (fun v => lo <= v < lo + n) (sparse_result lo n offs).
Proof.
  apply List.Forall_forall. intros v Hv. apply In_sparse_result in Hv as (o & Ho & ->).
  pose proof (proj1 (List.Forall_forall _ _) offs_range o Ho). simpl in *. lia.
Qed.

Lemma sparse_result_length : (length (sparse_result lo n offs) <= length offs)%nat.
Proof.
  rewrite <- (length_fmap (Z.add lo) offs).
  apply NoDup_incl_length; [apply StronglySorted_lt_NoDup, sparse_result_sorted|].
  intros v Hv. apply In_sparse_result in Hv as (o & Ho & ->).
  apply list_elem_of_In, list_elem_of_fmap. exists o. split; [reflexivity|].
  apply list_elem_of_In, Ho.
Qed.

Lemma sparse_result_nil : sparse_result lo n offs = [] <-> offs = [].
Proof.
  split; intros Heq; apply no_In_nil.
  - intros o Ho. assert (Hin : In (lo + o) (sparse_result lo n offs))
      by (apply In_sparse_result; eauto).
    rewrite Heq in Hin. destruct Hin.
  - intros v Hv. apply In_sparse_result in Hv as (o & Ho & _).
    rewrite Heq in Ho. destruct Ho.
Qed.

End SparseResult.

(** ** The two regimes *)

(** The dense loop writes [loInclusive + j] at every index it visits, and
    nothing else. *)
Lemma fill_loop k lo : forall i c,
  0 <= i -> (Z.to_nat i + k <= length c)%nat ->
  exists c', for_loop k i (fill lo) c = Some c' /\
             length c' = length c /\
             forall j, c' !! j =
                       if decide (Z.to_nat i <= j < Z.to_nat i + k)%nat
                       then Some (to_size_t (lo + Z.of_nat j)) else c !! j.
Proof.
  induction k as [|k IH]; intros i c Hi Hlen.
  - exists c. split; [reflexivity|]. split; [reflexivity|]. intros j.
    rewrite decide_False by lia. reflexivity.
  - cbn [for_loop]. change (fill lo i c) with (store c i (to_size_t (lo + i))).
    rewrite store_Some by lia. cbn [mbind option_bind].
    destruct (IH (i + 1) (<[Z.to_nat i := to_size_t (lo + i)]> c)) as (c' & Hc' & Hl & Hj);
      [lia | rewrite length_insert; lia |].
    exists c'. split; [exact Hc'|]. split; [rewrite Hl; apply length_insert|].
    intros j. rewrite Hj, list_lookup_insert.
    destruct (decide (Z.to_nat i = j)) as [<-|Hne].
    + rewrite (decide_True (P := (_ <= _ < _ + S k)%nat)) by lia.
      rewrite Z2Nat.id by lia.
      destruct (decide (Z.to_nat (i + 1) <= Z.to_nat i < Z.to_nat (i + 1) + k)%nat);
        [reflexivity|].
      rewrite decide_True by lia. reflexivity.
    + rewrite (decide_False (P := (_ = _ /\ _))) by tauto.
      destruct (decide (Z.to_nat (i + 1) <= j < Z.to_nat (i + 1) + k)%nat).
      * rewrite decide_True by lia. reflexivity.
      * rewrite decide_False by lia. reflexivity.
Qed.

(** The dense branch overwrites the whole vector, whatever it held. *)
Lemma dense_fill n lo ds :
  0 <= n ->
  for_loop (Z.to_nat n) 0 (fill lo) (set_size n ds)
  = Some ((fun j => to_size_t (lo + j)) <$> seqZ 0 n).
Proof.
  intros Hn.
  destruct (fill_loop (Z.to_nat n) lo 0 (set_size n ds))
    as (c' & -> & Hl & Hj); [lia | rewrite length_set_size; lia |].
  f_equal. rewrite length_set_size in Hl.
  apply list_eq. intros j. rewrite Hj, list_lookup_fmap.
  destruct (decide (Z.to_nat 0 <= j < Z.to_nat 0 + Z.to_nat n)%nat) as [Hin|Hout].
  - rewrite lookup_seqZ_lt by lia. reflexivity.
  - rewrite lookup_seqZ_ge by lia. apply lookup_ge_None_2.
    rewrite length_set_size. lia.
Qed.

Section Regimes.
Context `{E : UniformEngine}.
Variables (lo hi maxN : Z).
Hypothesis lo_size : is_size_t lo.
Hypothesis hi_size : is_size_t hi.
Hypothesis lo_le_hi : lo <= hi.

Lemma ObtainDistinctSamples_dense ds (w : globals) :
  hi - lo <= maxN ->
  ObtainDistinctSamples lo hi maxN ds w = Some (full_range lo hi, w).
Proof.
  intros Hdense. unfold ObtainDistinctSamples, is_size_t, SIZE_MODULUS in *.
  rewrite to_size_t_small by (unfold is_size_t, SIZE_MODULUS; lia).
  replace (maxN <? hi - lo) with false by (symmetry; apply Z.ltb_ge; lia).
  rewrite dense_fill by lia. cbn [mbind option_bind]. f_equal. f_equal.
  unfold full_range. rewrite <- (Z.add_0_r lo) at 2. rewrite <- fmap_add_seqZ.
  apply Forall_fmap_ext, Forall_seqZ. intros j Hj.
  apply to_size_t_small. unfold is_size_t, SIZE_MODULUS. lia.
Qed.

(** The sparse regime as a whole: the draws, the test that every offset
    is inside the counter column (an offset outside is an access out of
    bounds), and the offsets hit. *)
Lemma ObtainDistinctSamples_sparse ds (w : globals) :
  0 <= maxN < hi - lo ->
  ObtainDistinctSamples lo hi maxN ds w =
  '(rs, w') ← draws (Z.to_nat maxN) (to_int (hi - lo)) w;
  if forallb (fun o => o <? hi - lo) (to_size_t <$> rs)
  then Some (sparse_result lo (hi - lo) (to_size_t <$> rs), w')
  else None.
Proof.
  intros Hsparse. unfold ObtainDistinctSamples, is_size_t in *.
  rewrite to_size_t_small by (unfold is_size_t; lia).
  replace (maxN <? hi - lo) with true by (symmetry; apply Z.ltb_lt; lia).
  rewrite throws_draws.
  destruct (draws (Z.to_nat maxN) (to_int (hi - lo)) w) as [[rs w']|] eqn:Hd;
    [|reflexivity].
  apply draws_inv in Hd as [Hlen _]. cbn [mbind option_bind].
  set (offs := to_size_t <$> rs).
  assert (Hoffs : Forall (fun o => 0 <= o < SIZE_MODULUS) offs).
  { apply Forall_fmap, Forall_true. intros r. apply to_size_t_range. }
  rewrite increments_eq.
  2:{ apply Forall_replicate. unfold offs. rewrite length_fmap, Hlen.
      unfold SIZE_MODULUS in *. lia. }
  2:{ eapply Forall_impl; [exact Hoffs|]. simpl. intros; lia. }
  rewrite length_zeros, Z2Nat.id by lia.
  destruct (forallb (fun o => o <? hi - lo) offs) eqn:Hall; [|reflexivity].
  cbn [mbind option_bind]. f_equal. f_equal.
  rewrite find_gt_zero
    by (apply count_throws_nonneg, Forall_replicate; lia).
  fold (hit_offsets (count_throws (zeros (hi - lo)) offs)).
  unfold sparse_result.
  destruct (Z.ltb_spec 0 lo) as [Hpos|Hzero].
  - unfold add_scalar. apply Forall_fmap_ext, List.Forall_forall.
    intros o Ho. apply In_hit_offsets in Ho as [Ho _].
    rewrite length_count_throws, length_zeros in Ho.
    rewrite to_size_t_small by (unfold is_size_t; lia). lia.
  - assert (lo = 0) as -> by lia. symmetry. apply list_fmap_id.
Qed.

End Regimes.

Lemma to_int_small n : INT_MIN <= n <= INT_MAX -> to_int n = n.
Proof.
  unfold to_int, INT_MIN, INT_MAX. intros Hn. rewrite Z.mod_small; lia.
Qed.

Lemma fmap_to_size_t_id n (rs : list Z) :
  is_size_t n -> Forall (fun r => 0 <= r < n) rs -> to_size_t <$> rs = rs.
Proof.
  intros Hn Hrs. rewrite <- (list_fmap_id rs) at 2.
  apply Forall_fmap_ext. eapply Forall_impl; [exact Hrs|]. simpl. intros r Hr.
  apply to_size_t_small. unfold is_size_t in *. lia.
Qed.

Lemma forallb_ltb n (offs : list Z) :
  forallb (fun o => o <? n) offs = true <-> Forall (fun o => o < n) offs.
Proof.
  rewrite forallb_forall, List.Forall_forall. split; intros H o Ho.
  - apply Z.ltb_lt, H, Ho.
  - apply Z.ltb_lt, H, Ho.
Qed.

Section Calls.
Context `{E : UniformEngine}.
Variables (lo hi maxN : Z).
Hypothesis lo_size : is_size_t lo.
Hypothesis hi_size : is_size_t hi.
Hypothesis max_size : is_size_t maxN.
Hypothesis lo_le_hi : lo <= hi.

(** What a sparse call that returns has done. *)
Lemma ObtainDistinctSamples_sparse_inv ds (w : globals) out w' :
  maxN < hi - lo ->
  ObtainDistinctSamples lo hi maxN ds w = Some (out, w') ->
  exists offs,
    Z.of_nat (length offs) = maxN /\
    Forall (fun o => 0 <= o < hi - lo) offs /\
    out = sparse_result lo (hi - lo) offs /\
    w' = with_randGen (Nat.iter (Z.to_nat maxN) advance (randGen w)) w.
Proof.
  intros Hsparse. unfold is_size_t in max_size.
  rewrite ObtainDistinctSamples_sparse by (assumption || lia).
  destruct (draws (Z.to_nat maxN) (to_int (hi - lo)) w) as [[rs w1]|] eqn:Hd;
    [|discriminate].
  cbn [mbind option_bind].
  destruct (forallb _ _) eqn:Hall; [|discriminate]. intros [= <- <-].
  apply draws_inv in Hd as [Hlen ->]. exists (to_size_t <$> rs).
  split; [rewrite length_fmap; lia|]. split; [|auto].
  apply forallb_ltb in Hall. apply Forall_fmap. apply Forall_fmap in Hall.
  eapply Forall_impl; [exact Hall|]. simpl. intros r Hr.
  pose proof (to_size_t_range r) as Hr'. unfold is_size_t in Hr'. lia.
Qed.

(** A sparse call over a range whose size fits an [int] returns, and does
    what the specification says. *)
Lemma sparse_regime_fits_int `{!UnitUniform E} ds (w : globals) :
  maxN < hi - lo <= INT_MAX ->
  sparse_regime_spec lo hi maxN ds w.
Proof.
  intros Hsparse. unfold is_size_t in max_size. unfold sparse_regime_spec.
  rewrite ObtainDistinctSamples_sparse by (assumption || lia).
  rewrite to_int_small by (unfold INT_MIN, INT_MAX in *; lia).
  destruct (draws_total (Z.to_nat maxN) (hi - lo) w) as (rs & Hd & Hlen & Hrs); [lia|].
  exists rs, (with_randGen (Nat.iter (Z.to_nat maxN) advance (randGen w)) w).
  rewrite Hd. cbn [mbind option_bind].
  assert (Hn : is_size_t (hi - lo)) by (unfold is_size_t in *; lia).
  rewrite (fmap_to_size_t_id (hi - lo)) by assumption.
  replace (forallb (fun o => o <? hi - lo) rs) with true.
  - split; [reflexivity|]. split; [lia|]. split; [exact Hrs | reflexivity].
  - symmetry. apply forallb_ltb. eapply Forall_impl; [exact Hrs|]. simpl. intros; lia.
Qed.

(** A call returns whenever it is dense or the range size fits an [int]. *)
Lemma ObtainDistinctSamples_returns `{!UnitUniform E} ds (w : globals) :
  hi - lo <= Z.max maxN INT_MAX ->
  is_Some (ObtainDistinctSamples lo hi maxN ds w).
Proof.
  intros Hfit. destruct (Z.le_gt_cases (hi - lo) maxN) as [Hdense|Hsparse].
  - rewrite ObtainDistinctSamples_dense by assumption. eauto.
  - destruct (sparse_regime_fits_int ds w) as (offs & w' & _ & _ & _ & ->); [lia|]. eauto.
Qed.

End Calls.

(** ** What a call depends on *)

Section Dependence.
Context `{E : UniformEngine}.

(** The call with its loops resolved, for arbitrary arguments: the vector
    passed in does not occur on the right-hand side. *)
Lemma ObtainDistinctSamples_unfold lo hi maxN ds (w : globals) :
  ObtainDistinctSamples lo hi maxN ds w =
  let n := to_size_t (hi - lo) in
  if maxN <? n then
    '(rs, w') ← draws (Z.to_nat maxN) (to_int n) w;
    c ← increments (zeros n) (to_size_t <$> rs);
    Some (if 0 <? lo then add_scalar lo (find (gt_zero c)) else find (gt_zero c), w')
  else Some ((fun j => to_size_t (lo + j)) <$> seqZ 0 n, w).
Proof.
  unfold ObtainDistinctSamples. cbv zeta.
  destruct (maxN <? to_size_t (hi - lo)).
  - rewrite throws_draws.
    destruct (draws _ _ w) as [[rs w']|]; [|reflexivity]. cbn [mbind option_bind].
    destruct (increments _ _) as [c|]; reflexivity.
  - rewrite dense_fill; [reflexivity|]. apply to_size_t_range.
Qed.

Lemma RandInt_regen h (w1 w2 : globals) :
  randGen w1 = randGen w2 ->
  RandInt h w2 =
  (fun r : Z * globals => (fst r, with_randGen (randGen (snd r)) w2)) <$> RandInt h w1.
Proof.
  intros Hg. unfold RandInt. rewrite Hg.
  destruct (uniform_real (randGen w2)) as [u g].
  destruct (floor_to_int _); reflexivity.
Qed.

Lemma draws_regen k h : forall w1 w2 : globals,
  randGen w1 = randGen w2 -> draws k h w2 = regen w2 <$> draws k h w1.
Proof.
  induction k as [|k IH]; intros w1 w2 Hg; cbn [draws].
  - cbn. unfold regen. cbn. rewrite Hg, with_randGen_id. reflexivity.
  - rewrite (RandInt_regen h w1 w2 Hg).
    destruct (RandInt h w1) as [[r w1']|]; [|reflexivity]. cbn.
    rewrite (IH w1' (with_randGen (randGen w1') w2)) by reflexivity.
    destruct (draws k h w1') as [[rs w1'']|]; reflexivity.
Qed.

Lemma ObtainDistinctSamples_regen lo hi maxN ds1 ds2 (w1 w2 : globals) :
  randGen w1 = randGen w2 ->
  ObtainDistinctSamples lo hi maxN ds2 w2 =
  regen w2 <$> ObtainDistinctSamples lo hi maxN ds1 w1.
Proof.
  intros Hg. rewrite !ObtainDistinctSamples_unfold. cbv zeta.
  destruct (maxN <? to_size_t (hi - lo)).
  - rewrite (draws_regen _ _ w1 w2 Hg).
    destruct (draws _ _ w1) as [[rs w']|]; [|reflexivity]. cbn.
    destruct (increments _ _) as [c|]; reflexivity.
  - cbn. unfold regen. cbn. rewrite Hg, with_randGen_id. reflexivity.
Qed.

Lemma RandomSeed_randGen b seed (w : globals) :
  binding_test b = false ->
  randGen (RandomSeed b seed w) = engine_seed (to_uint32 seed).
Proof. intros Hb. unfold RandomSeed. rewrite Hb. reflexivity. Qed.

End Dependence.

(** ** The result of a call that returns *)

Section Result.
Context `{E : UniformEngine}.
Variables (lo hi maxN : Z).
Hypothesis lo_size : is_size_t lo.
Hypothesis hi_size : is_size_t hi.
Hypothesis max_size : is_size_t maxN.
Hypothesis lo_le_hi : lo <= hi.

Lemma ObtainDistinctSamples_cases ds (w : globals) out w' :
  ObtainDistinctSamples lo hi maxN ds w = Some (out, w') ->
  (hi - lo <= maxN /\ out = full_range lo hi /\ w' = w) \/
  (maxN < hi - lo /\
   exists offs,
     Z.of_nat (length offs) = maxN /\
     Forall (fun o => 0 <= o < hi - lo) offs /\
     out = sparse_result lo (hi - lo) offs /\
     w' = with_randGen (Nat.iter (Z.to_nat maxN) advance (randGen w)) w).
Proof.
  intros Hcall. destruct (Z.le_gt_cases (hi - lo) maxN) as [Hdense|Hsparse].
  - left. rewrite ObtainDistinctSamples_dense in Hcall by assumption.
    injection Hcall as <- <-. auto.
  - right. split; [exact Hsparse|].
    eapply ObtainDistinctSamples_sparse_inv; eassumption.
Qed.

Lemma length_full_range : Z.of_nat (length (full_range lo hi)) = hi - lo.
Proof. unfold full_range. rewrite length_seqZ. lia. Qed.

Lemma full_range_bounds : Forall (fun v => lo <= v < hi) (full_range lo hi).
Proof. apply Forall_seqZ. intros; lia. Qed.

End Result.

(** * Properties of the sampler *)

(** C1. Dense regime exactness: for [loInclusive <= hiExclusive] and
    [hiExclusive - loInclusive <= maxNumSamples] the call returns exactly
    [loInclusive, loInclusive + 1, ..., hiExclusive - 1], a sequence of
    length [hiExclusive - loInclusive], and the process-wide state, the
    generator included, is returned as it was: nothing was drawn. *)
Theorem dense_regime_exact `{E : UniformEngine} lo hi maxN ds (w : globals) :
  is_size_t lo -> is_size_t hi -> lo <= hi -> hi - lo <= maxN ->
  ObtainDistinctSamples lo hi maxN ds w = Some (full_range lo hi, w) /\
  Z.of_nat (length (full_range lo hi)) = hi - lo /\
  forall i, 0 <= i < hi - lo -> full_range lo hi !! Z.to_nat i = Some (lo + i).
Proof.
  intros Hlo Hhi Hle Hdense. split; [|split].
  - apply ObtainDistinctSamples_dense; assumption.
  - apply length_full_range. exact Hle.
  - intros i Hi. unfold full_range. rewrite lookup_seqZ_lt by lia. f_equal. lia.
Qed.

Lemma dense_regime_exact_witness :
  (is_size_t 5 /\ is_size_t 8 /\ 5 <= 8 /\ 8 - 5 <= 10) /\
  @ObtainDistinctSamples lcg 5 8 10 [1; 2; 3; 4] (lcg_seeded 42)
  = Some ([5; 6; 7], lcg_seeded 42).
Proof.
  assert (H5 : is_size_t 5) by (unfold is_size_t, SIZE_MODULUS; lia).
  assert (H8 : is_size_t 8) by (unfold is_size_t, SIZE_MODULUS; lia).
  assert (Hle : 5 <= 8) by lia.
  assert (Hd : 8 - 5 <= 10) by lia.
  split; [auto|].
  exact (proj1 (@dense_regime_exact lcg 5 8 10 [1; 2; 3; 4] (lcg_seeded 42) H5 H8 Hle Hd)).
Defined.

(** The arguments of the sample calls run below fit a [size_t]. *)
Lemma sample_sizes :
  is_size_t 10 /\ is_size_t 18 /\ is_size_t 6 /\ is_size_t 0 /\ is_size_t 3.
Proof. unfold is_size_t, SIZE_MODULUS. lia. Defined.

(** C3. Upper bound on count: whenever a call with
    [loInclusive <= hiExclusive] returns, the number of values returned is
    at most [min(maxNumSamples, rangeSize)], in both regimes. The call
    does return when it is dense or the range size fits an [int]. *)
Theorem count_upper_bound `{E : UniformEngine} `{!UnitUniform E}
    lo hi maxN ds (w : globals) :
  is_size_t lo -> is_size_t hi -> is_size_t maxN -> lo <= hi ->
  (forall out w',
     ObtainDistinctSamples lo hi maxN ds w = Some (out, w') ->
     Z.of_nat (length out) <= Z.min maxN (hi - lo)) /\
  (hi - lo <= Z.max maxN INT_MAX ->
   is_Some (ObtainDistinctSamples lo hi maxN ds w)).
Proof.
  intros Hlo Hhi Hmax Hle. split; [|apply ObtainDistinctSamples_returns; assumption].
  intros out w' Hcall.
  apply ObtainDistinctSamples_cases in Hcall
    as [(Hd & -> & _)|(Hs & offs & Hlen & Hoffs & -> & _)]; try assumption.
  - rewrite length_full_range by assumption. lia.
  - pose proof (sparse_result_length lo (hi - lo) offs Hoffs). lia.
Qed.

Lemma count_upper_bound_witness :
  fst <$> @ObtainDistinctSamples lcg 10 18 6 [] (lcg_seeded 1) = Some [11; 12; 14; 17] /\
  Z.of_nat (length [11; 12; 14; 17]) <= Z.min 6 (18 - 10).
Proof.
  destruct sample_sizes as (H10 & H18 & H6 & _).
  split; [reflexivity|].
  eapply (proj1 (@count_upper_bound lcg lcg_unit 10 18 6 [] (lcg_seeded 1)
                   H10 H18 H6 ltac:(lia))).
  reflexivity.
Defined.

(** C4. Bounds: whenever a call with [loInclusive <= hiExclusive] returns,
    every value [v] returned satisfies [loInclusive <= v < hiExclusive].
    The call does return when it is dense or the range size fits an
    [int]. *)
Theorem samples_in_range `{E : UniformEngine} `{!UnitUniform E}
    lo hi maxN ds (w : globals) :
  is_size_t lo -> is_size_t hi -> is_size_t maxN -> lo <= hi ->
  (forall out w',
     ObtainDistinctSamples lo hi maxN ds w = Some (out, w') ->
     Forall (fun v => lo <= v < hi) out) /\
  (hi - lo <= Z.max maxN INT_MAX ->
   is_Some (ObtainDistinctSamples lo hi maxN ds w)).
Proof.
  intros Hlo Hhi Hmax Hle. split; [|apply ObtainDistinctSamples_returns; assumption].
  intros out w' Hcall.
  apply ObtainDistinctSamples_cases in Hcall
    as [(Hd & -> & _)|(Hs & offs & Hlen & Hoffs & -> & _)]; try assumption.
  - apply full_range_bounds.
  - eapply Forall_impl; [apply sparse_result_bounds, Hoffs|]. simpl. intros; lia.
Qed.

Lemma samples_in_range_witness :
  fst <$> @ObtainDistinctSamples lcg 10 18 6 [] (lcg_seeded 1) = Some [11; 12; 14; 17] /\
  Forall (fun v => 10 <= v < 18) [11; 12; 14; 17].
Proof.
  destruct sample_sizes as (H10 & H18 & H6 & _).
  split; [reflexivity|].
  eapply (proj1 (@samples_in_range lcg lcg_unit 10 18 6 [] (lcg_seeded 1)
                   H10 H18 H6 ltac:(lia))).
  reflexivity.
Defined.

(** C5. Ascending order and no duplicates: whenever a call with
    [loInclusive <= hiExclusive] returns, the sequence returned is
    strictly increasing, hence without a repeated value. The call does
    return when it is dense or the range size fits an [int]. *)
Theorem ascending_without_duplicates `{E : UniformEngine} `{!UnitUniform E}
    lo hi maxN ds (w : globals) :
  is_size_t lo -> is_size_t hi -> is_size_t maxN -> lo <= hi ->
  (forall out w',
     ObtainDistinctSamples lo hi maxN ds w = Some (out, w') ->
     StronglySorted Z.lt out /\ List.NoDup out) /\
  (hi - lo <= Z.max maxN INT_MAX ->
   is_Some (ObtainDistinctSamples lo hi maxN ds w)).
Proof.
  intros Hlo Hhi Hmax Hle. split; [|apply ObtainDistinctSamples_returns; assumption].
  intros out w' Hcall.
  assert (Hsorted : StronglySorted Z.lt out).
  { apply ObtainDistinctSamples_cases in Hcall
      as [(Hd & -> & _)|(Hs & offs & Hlen & Hoffs & -> & _)]; try assumption.
    - apply StronglySorted_seqZ.
    - apply sparse_result_sorted. }
  split; [exact Hsorted | apply StronglySorted_lt_NoDup, Hsorted].
Qed.

Lemma ascending_without_duplicates_witness :
  fst <$> @ObtainDistinctSamples lcg 10 18 6 [] (lcg_seeded 1) = Some [11; 12; 14; 17] /\
  StronglySorted Z.lt [11; 12; 14; 17] /\ List.NoDup [11; 12; 14; 17].
Proof.
  destruct sample_sizes as (H10 & H18 & H6 & _).
  split; [reflexivity|].
  eapply (proj1 (@ascending_without_duplicates lcg lcg_unit 10 18 6 [] (lcg_seeded 1)
                   H10 H18 H6 ltac:(lia))).
  reflexivity.
Defined.

(** Emptiness, for the calls that stay inside the counter column:
    whenever a call with [loInclusive <= hiExclusive] returns, the
    sequence returned is empty if and only if [maxNumSamples = 0] or the
    range is empty. The call does return when it is dense or the range
    size fits an [int]; [nonempty_result_int_overflow] is a call beyond
    that. *)
Theorem empty_iff_nothing_to_draw `{E : UniformEngine} `{!UnitUniform E}
    lo hi maxN ds (w : globals) :
  is_size_t lo -> is_size_t hi -> is_size_t maxN -> lo <= hi ->
  (forall out w',
     ObtainDistinctSamples lo hi maxN ds w = Some (out, w') ->
     (out = [] <-> maxN = 0 \/ hi - lo = 0)) /\
  (hi - lo <= Z.max maxN INT_MAX ->
   is_Some (ObtainDistinctSamples lo hi maxN ds w)).
Proof.
  intros Hlo Hhi Hmax Hle. split; [|apply ObtainDistinctSamples_returns; assumption].
  intros out w' Hcall. unfold is_size_t in Hmax.
  apply ObtainDistinctSamples_cases in Hcall
    as [(Hd & -> & _)|(Hs & offs & Hlen & Hoffs & -> & _)]; try assumption.
  - pose proof (length_full_range lo hi Hle) as Hl.
    split.
    + intros Hnil. rewrite Hnil in Hl. simpl in Hl. lia.
    + intros Hz. apply length_zero_iff_nil. lia.
  - rewrite (sparse_result_nil lo (hi - lo) offs Hoffs).
    split.
    + intros ->. simpl in Hlen. lia.
    + intros Hz. apply length_zero_iff_nil. lia.
Qed.

Lemma empty_iff_nothing_to_draw_witness :
  (fst <$> @ObtainDistinctSamples lcg 0 18 0 [] (lcg_seeded 1) = Some [] /\
   (@nil Z = [] <-> 0 = 0 \/ 18 - 0 = 0)) /\
  (fst <$> @ObtainDistinctSamples lcg 10 18 6 [] (lcg_seeded 1) = Some [11; 12; 14; 17] /\
   ([11; 12; 14; 17] = [] <-> 6 = 0 \/ 18 - 10 = 0)).
Proof.
  destruct sample_sizes as (H10 & H18 & H6 & H0 & _).
  split; (split; [reflexivity|]).
  - eapply (proj1 (@empty_iff_nothing_to_draw lcg lcg_unit 0 18 0 [] (lcg_seeded 1)
                     H0 H18 H0 ltac:(lia))).
    reflexivity.
  - eapply (proj1 (@empty_iff_nothing_to_draw lcg lcg_unit 10 18 6 [] (lcg_seeded 1)
                     H10 H18 H6 ltac:(lia))).
    reflexivity.
Defined.

(** C9. Generator-state frame: whenever a call with
    [loInclusive <= hiExclusive] returns, in the dense regime the
    process-wide state is the one it started from (no draw), and in the
    sparse regime [randGen] has been advanced exactly [maxNumSamples]
    times, once per draw, the other globals being untouched. The call
    does return when it is dense or the range size fits an [int]. *)
Theorem generator_state_frame `{E : UniformEngine} `{!UnitUniform E}
    lo hi maxN ds (w : globals) :
  is_size_t lo -> is_size_t hi -> is_size_t maxN -> lo <= hi ->
  (forall out w',
     ObtainDistinctSamples lo hi maxN ds w = Some (out, w') ->
     (hi - lo <= maxN -> w' = w) /\
     (maxN < hi - lo ->
      w' = with_randGen (Nat.iter (Z.to_nat maxN) advance (randGen w)) w)) /\
  (hi - lo <= Z.max maxN INT_MAX ->
   is_Some (ObtainDistinctSamples lo hi maxN ds w)).
Proof.
  intros Hlo Hhi Hmax Hle. split; [|apply ObtainDistinctSamples_returns; assumption].
  intros out w' Hcall.
  apply ObtainDistinctSamples_cases in Hcall
    as [(Hd & _ & ->)|(Hs & offs & _ & _ & _ & ->)]; try assumption.
  - split; [reflexivity | lia].
  - split; [lia | reflexivity].
Qed.

Lemma generator_state_frame_witness :
  (exists out w',
     @ObtainDistinctSamples lcg 10 18 6 [] (lcg_seeded 1) = Some (out, w') /\
     w' = @with_randGen lcg (Nat.iter 6 (@advance lcg) 1) (lcg_seeded 1)) /\
  (exists out w',
     @ObtainDistinctSamples lcg 10 18 8 [] (lcg_seeded 1) = Some (out, w') /\
     w' = lcg_seeded 1).
Proof.
  destruct sample_sizes as (H10 & H18 & H6 & _).
  assert (H8 : is_size_t 8) by (unfold is_size_t, SIZE_MODULUS; lia).
  split; eexists _, _; (split; [reflexivity|]).
  - eapply (proj1 (@generator_state_frame lcg lcg_unit 10 18 6 [] (lcg_seeded 1)
                     H10 H18 H6 ltac:(lia))); [reflexivity | lia].
  - eapply (proj1 (@generator_state_frame lcg lcg_unit 10 18 8 [] (lcg_seeded 1)
                     H10 H18 H8 ltac:(lia))); [reflexivity | lia].
Defined.

(** C7. Determinism under a fixed seed: two calls with the same
    arguments, started with [randGen] in the same state, return the same
    sequence, whatever the other globals and the vectors passed in hold;
    in particular after [RandomSeed] with the same seed (in a build where
    [RandomSeed] seeds), whatever the states before the seeding were. *)
Theorem determinism_under_fixed_seed `{E : UniformEngine} lo hi maxN :
  (forall ds1 ds2 (w1 w2 : globals),
     randGen w1 = randGen w2 ->
     fst <$> ObtainDistinctSamples lo hi maxN ds1 w1
     = fst <$> ObtainDistinctSamples lo hi maxN ds2 w2) /\
  (forall b seed ds1 ds2 (w1 w2 : globals),
     binding_test b = false ->
     fst <$> ObtainDistinctSamples lo hi maxN ds1 (RandomSeed b seed w1)
     = fst <$> ObtainDistinctSamples lo hi maxN ds2 (RandomSeed b seed w2)).
Proof.
  assert (Hsame : forall ds1 ds2 (w1 w2 : globals),
            randGen w1 = randGen w2 ->
            fst <$> ObtainDistinctSamples lo hi maxN ds1 w1
            = fst <$> ObtainDistinctSamples lo hi maxN ds2 w2).
  { intros ds1 ds2 w1 w2 Hg.
    rewrite (ObtainDistinctSamples_regen lo hi maxN ds1 ds2 w1 w2 Hg).
    destruct (ObtainDistinctSamples lo hi maxN ds1 w1) as [[out w']|]; reflexivity. }
  split; [exact Hsame|].
  intros b seed ds1 ds2 w1 w2 Hb. apply Hsame.
  rewrite !RandomSeed_randGen by exact Hb. reflexivity.
Qed.

Lemma determinism_under_fixed_seed_witness :
  fst <$> @ObtainDistinctSamples lcg 10 18 6 [1; 2]
            (@RandomSeed lcg (Build false false) 7
               {| randGen := 99 : @engine lcg; libc_seed := 3; arma_seed := 4 |})
  = fst <$> @ObtainDistinctSamples lcg 10 18 6 [5; 6; 7]
              (@RandomSeed lcg (Build false true) 7
                 {| randGen := 11 : @engine lcg; libc_seed := 0; arma_seed := 0 |}).
Proof.
  apply (proj1 (@determinism_under_fixed_seed lcg 10 18 6)). reflexivity.
Defined.

(** C10. The vector passed in does not matter: two calls that agree on
    the three arguments and on the process-wide state return the same
    result (sequence and state), whatever [distinctSamples] held before
    and whatever its size was. *)
Theorem output_vector_overwritten `{E : UniformEngine}
    lo hi maxN ds1 ds2 (w : globals) :
  ObtainDistinctSamples lo hi maxN ds1 w = ObtainDistinctSamples lo hi maxN ds2 w.
Proof. rewrite !ObtainDistinctSamples_unfold. reflexivity. Qed.

(** C8. The uniform integer generator: for an [int] [hiExclusive > 0],
    and a double [u] of [[0, 1)] drawn by the distribution,
    [RandInt(hiExclusive)], that is [(int) floor((double) hiExclusive * u)]
    with the product rounded to nearest, returns an integer [v] with
    [0 <= v < hiExclusive], and advances [randGen] by one draw. *)
Theorem uniform_integer_contract `{E : UniformEngine} `{!UnitUniform E}
    hiExclusive (w : globals) :
  0 < hiExclusive <= INT_MAX ->
  exists v,
    RandInt hiExclusive w = Some (v, with_randGen (advance (randGen w)) w) /\
    floor_to_int (double_mul (double_of_int hiExclusive) (fst (Random w))) = Some v /\
    0 <= v < hiExclusive.
Proof.
  intros Hh. destruct (RandInt_range hiExclusive w Hh) as (v & Hv & Hrange).
  exists v. split; [exact Hv|]. split; [|exact Hrange].
  apply RandInt_inv in Hv as [_ Hv]. unfold Random.
  destruct (uniform_real (randGen w)). exact Hv.
Qed.

Lemma uniform_integer_contract_witness :
  0 < 8 <= INT_MAX /\
  exists v,
    @RandInt lcg 8 (lcg_seeded 1)
    = Some (v, @with_randGen lcg (@advance lcg 1) (lcg_seeded 1)) /\
    floor_to_int (double_mul (double_of_int 8) (fst (@Random lcg (lcg_seeded 1)))) = Some v /\
    0 <= v < 8.
Proof.
  assert (H : 0 < 8 <= INT_MAX) by (unfold INT_MAX; lia).
  split; [exact H|].
  exact (@uniform_integer_contract lcg lcg_unit 8 (lcg_seeded 1) H).
Defined.

(** ** Ranges whose size does not fit an [int] *)

(** A range of [2^32 + 5] values is sampled in its first five values
    only: [RandInt] receives the size converted to [int], which is 5. *)
Lemma sparse_regime_truncated `{E : UniformEngine} `{!UnitUniform E}
    lo hi maxN ds (w : globals) out w' :
  is_size_t lo -> is_size_t hi -> is_size_t maxN ->
  hi - lo = 2 ^ 32 + 5 -> maxN < hi - lo ->
  ObtainDistinctSamples lo hi maxN ds w = Some (out, w') ->
  Forall (fun v => lo <= v < lo + 5) out.
Proof.
  intros Hlo Hhi Hmax Hn Hsparse. unfold is_size_t in Hmax.
  rewrite ObtainDistinctSamples_sparse by (assumption || lia).
  rewrite Hn. change (to_int (2 ^ 32 + 5)) with 5.
  destruct (draws_total (Z.to_nat maxN) 5 w) as (rs & -> & _ & Hrs);
    [unfold INT_MAX; lia|].
  cbn [mbind option_bind].
  assert (Hn5 : is_size_t 5) by (unfold is_size_t, SIZE_MODULUS; lia).
  rewrite (fmap_to_size_t_id 5) by assumption.
  destruct (forallb _ rs); [|discriminate]. intros [= <- _].
  apply List.Forall_forall. intros v Hv.
  apply In_sparse_result in Hv as (o & Ho & ->).
  - pose proof (proj1 (List.Forall_forall _ _) Hrs o Ho) as Hr. simpl in Hr. lia.
  - eapply Forall_impl; [exact Hrs|]. simpl. intros; lia.
Qed.

(** C2. Sparse regime, at a range of [2^31] values with a budget of one:
    the range size reaches [RandInt] as the [int] [-2^31], the draw is
    negative, and the counter it selects is outside the column of [2^31]
    counters; the call does not return, and the sparse regime of the
    specification does not describe it. (For ranges whose size fits an
    [int], [sparse_regime_fits_int] shows the call is the regime of the
    specification.) *)
Theorem sparse_regime_int_overflow :
  to_int (2 ^ 31 - 0) = - 2 ^ 31 /\
  fst <$> @RandInt lcg (to_int (2 ^ 31 - 0)) (lcg_seeded 1) = Some (-1103527590) /\
  @ObtainDistinctSamples lcg 0 (2 ^ 31) 1 [] (lcg_seeded 1) = None /\
  ~ @sparse_regime_spec lcg 0 (2 ^ 31) 1 [] (lcg_seeded 1).
Proof.
  assert (Hcall : @ObtainDistinctSamples lcg 0 (2 ^ 31) 1 [] (lcg_seeded 1) = None).
  { rewrite ObtainDistinctSamples_sparse by (unfold is_size_t, SIZE_MODULUS; lia).
    assert (Hd : @draws lcg (Z.to_nat 1) (to_int (2 ^ 31 - 0)) (lcg_seeded 1)
                 = Some ([-1103527590], @with_randGen lcg (lcg_next 1) (lcg_seeded 1)))
      by reflexivity.
    rewrite Hd. cbn [mbind option_bind].
    assert (Hb : forallb (fun o => o <? 2 ^ 31 - 0) (to_size_t <$> [-1103527590]) = false)
      by reflexivity.
    rewrite Hb. reflexivity. }
  split; [reflexivity|]. split; [reflexivity|]. split; [exact Hcall|].
  intros (offs & w' & _ & _ & _ & Hspec). rewrite Hcall in Hspec. discriminate Hspec.
Qed.

(** A budget of zero gives nothing, whatever the size of the range. *)
Lemma zero_budget_empty `{E : UniformEngine} lo hi ds (w : globals) :
  is_size_t lo -> is_size_t hi -> lo <= hi ->
  ObtainDistinctSamples lo hi 0 ds w = Some ([], w).
Proof.
  intros Hlo Hhi Hle. destruct (Z.eq_dec hi lo) as [->|Hne].
  - rewrite ObtainDistinctSamples_dense by (assumption || lia).
    unfold full_range. rewrite Z.sub_diag. reflexivity.
  - rewrite ObtainDistinctSamples_sparse by (assumption || lia).
    change (draws (Z.to_nat 0) (to_int (hi - lo)) w) with (Some (@nil Z, w)).
    cbn [mbind option_bind fmap list_fmap forallb]. f_equal. f_equal.
    apply sparse_result_nil; [constructor | reflexivity].
Qed.

(** A column of counters that no draw has incremented selects nothing. *)
Lemma untouched_column n : find (gt_zero (zeros n)) = [].
Proof.
  rewrite find_gt_zero by (apply Forall_replicate; lia).
  unfold hit_offsets. induction (seqZ 0 _) as [|o l IH]; [reflexivity|].
  cbn [List.filter]. rewrite hit_zeros. exact IH.
Qed.

(** C6. Emptiness, at a range of [2^31] values with a budget of one, both
    at least 1: the only draw is negative and its counter lies beyond the
    [2^31] counters of the column, so the call increments outside the
    column and does not return; no non-empty sequence is returned, and the
    column itself, which the draw has not touched, selects nothing. The
    claim that such a call never gives an empty result does not hold
    there. (For calls that return, [empty_iff_nothing_to_draw] is the
    claim, and [zero_budget_empty] its zero-budget part for every range.) *)
Theorem nonempty_result_int_overflow :
  fst <$> @RandInt lcg (to_int (2 ^ 31 - 0)) (lcg_seeded 1) = Some (-1103527590) /\
  2 ^ 31 - 0 <= to_size_t (-1103527590) /\
  @ObtainDistinctSamples lcg 0 (2 ^ 31) 1 [] (lcg_seeded 1) = None /\
  find (gt_zero (zeros (2 ^ 31 - 0))) = [] /\
  ~ (exists out w',
       @ObtainDistinctSamples lcg 0 (2 ^ 31) 1 [] (lcg_seeded 1) = Some (out, w') /\
       out <> []).
Proof.
  assert (Hcall : @ObtainDistinctSamples lcg 0 (2 ^ 31) 1 [] (lcg_seeded 1) = None).
  { rewrite ObtainDistinctSamples_sparse by (unfold is_size_t, SIZE_MODULUS; lia).
    assert (Hd : @draws lcg (Z.to_nat 1) (to_int (2 ^ 31 - 0)) (lcg_seeded 1)
                 = Some ([-1103527590], @with_randGen lcg (lcg_next 1) (lcg_seeded 1)))
      by reflexivity.
    rewrite Hd. cbn [mbind option_bind].
    assert (Hb : forallb (fun o => o <? 2 ^ 31 - 0) (to_size_t <$> [-1103527590]) = false)
      by reflexivity.
    rewrite Hb. reflexivity. }
  split; [reflexivity|]. split; [apply Z.leb_le; reflexivity|].
  split; [exact Hcall|]. split; [apply untouched_column|].
  intros (out & w' & Hsome & _). rewrite Hcall in Hsome. discriminate Hsome.
Qed.

(** * The rest of the file *)

(** ** Doubles: products with a negative or a zero factor *)

(** The product of an integer of magnitude up to [2^31] and a double of
    [[0, 1)] is a zero or a positive double whose floor is below the
    integer. *)
Lemma mul_magnitude h u :
  0 < h <= 2 ^ 31 -> in_unit_interval u = true ->
  (exists s, double_mul (double_of_int h) u = S754_zero s) \/
  exists m e, double_mul (double_of_int h) u = S754_finite false m e /\
              0 <= Z.shiftl (Zpos m) e < h.
Proof.
  intros Hh Hu.
  destruct (double_of_int_pos h) as (mh & eh & -> & Heh & Hmh); [lia|].
  apply in_unit_interval_inv in Hu as [[s ->]|(mu & eu & -> & Heu & Hmu)].
  { left. exists (xorb false s). reflexivity. }
  unfold double_mul, SFmul. simpl xorb. rewrite binary_round_aux_core.
  destruct (round_core (Zpos (mh * mu)) (eh + eu)) as [mrs2 e2] eqn:Hrc.
  apply round_core_bound in Hrc as (Hm2 & He2 & Hb); [|lia].
  simpl fst; simpl snd.
  destruct (shr_m mrs2) as [|m2|m2] eqn:Hsm; [| |lia].
  { left. exists false. reflexivity. }
  assert (Hz : 0 <= Z.shiftl (Zpos m2) e2 < h /\ e2 <= 971).
  { destruct Hb as [Hb|[-> Hb]].
    - assert (HK : Zpos m2 * 2 ^ (e2 - (eh + eu)) < h * (2 ^ (- eh) * 2 ^ (- eu))).
      { apply (scaled_lt (2 ^ 53) _ _ _ _ (Zpos mu)); try lia;
          try (apply Z.pow_pos_nonneg; lia).
        all: rewrite <- Hmh, <- Pos2Z.inj_mul; exact Hb. }
      rewrite <- Z.pow_add_r in HK by lia.
      destruct (Z.le_gt_cases 0 e2) as [Hpos|Hneg].
      + rewrite Z.shiftl_mul_pow2 by lia.
        replace (e2 - (eh + eu)) with (e2 + (- eh + - eu)) in HK by lia.
        rewrite Z.pow_add_r, Z.mul_assoc in HK by lia.
        assert (0 < 2 ^ (- eh + - eu)) by (apply Z.pow_pos_nonneg; lia).
        assert (0 < 2 ^ e2) by (apply Z.pow_pos_nonneg; lia).
        assert (Hlt : Zpos m2 * 2 ^ e2 < h) by nia.
        split; [nia|].
        assert (e2 < 32); [|lia]. apply (Z.pow_lt_mono_r_iff 2); [lia | lia | nia].
      + rewrite <- (Z.opp_involutive e2) at 1 2.
        rewrite Z.shiftl_opp_r, Z.shiftr_div_pow2 by lia.
        split; [|lia].
        assert (0 < 2 ^ (- e2)) by (apply Z.pow_pos_nonneg; lia).
        split; [apply Z.div_pos; lia|].
        apply Z.div_lt_upper_bound; [lia|].
        replace (- eh + - eu) with (- e2 + (e2 - (eh + eu))) in HK by lia.
        rewrite Z.pow_add_r in HK by lia.
        assert (0 < 2 ^ (e2 - (eh + eu))) by (apply Z.pow_pos_nonneg; lia).
        nia.
    - split; [|lia]. change (Z.shiftl (Zpos m2) (-1074)) with (Z.shiftr (Zpos m2) 1074).
      rewrite Z.shiftr_div_pow2 by lia.
      rewrite Z.div_small; [lia|]. split; [lia|].
      eapply Z.le_lt_trans; [apply Hb|]. apply Z.pow_lt_mono_r; lia. }
  destruct Hz as [Hz He971]. right. exists m2, e2. split; [|exact Hz].
  replace (e2 <=? emax - prec) with true
    by (symmetry; apply Z.leb_le; unfold emax, prec; lia).
  reflexivity.
Qed.

Lemma binary_round_aux_opp m e l :
  binary_round_aux prec emax true m e l = SFopp (binary_round_aux prec emax false m e l).
Proof.
  unfold binary_round_aux.
  destruct (shr_fexp prec emax m e l) as [mrs1 e1].
  destruct (shr_fexp prec emax _ e1 loc_Exact) as [mrs2 e2].
  destruct (shr_m mrs2); [reflexivity | | reflexivity].
  destruct (e2 <=? emax - prec); reflexivity.
Qed.

Lemma double_of_int_opp h : 0 < h -> double_of_int (- h) = SFopp (double_of_int h).
Proof.
  destruct h as [|p|p]; try lia. intros _.
  unfold double_of_int. simpl. unfold binary_round.
  destruct (shl_align p 0 _) as [mz ez]. apply binary_round_aux_opp.
Qed.

Lemma SFopp_involutive x : SFopp (SFopp x) = x.
Proof. destruct x as [[]|[]| |[] m e]; reflexivity. Qed.

Lemma double_mul_opp_l x u :
  in_unit_interval u = true ->
  double_mul (SFopp x) u = SFopp (double_mul x u).
Proof.
  intros Hu. unfold double_mul.
  destruct u as [su| | |[] mu eu]; try discriminate; clear Hu;
    destruct x as [sx|sx| |sx mx ex]; cbn [SFopp SFmul];
    try reflexivity; try (destruct sx; reflexivity);
    try (destruct sx, su; reflexivity).
  destruct sx; cbn [negb xorb].
  - rewrite binary_round_aux_opp, SFopp_involutive. reflexivity.
  - apply binary_round_aux_opp.
Qed.

(** The floor of the opposite of a positive double. *)
Lemma floor_opp m e :
  - Z.shiftl (Zpos m) e - 1 <= Z.shiftl (Zneg m) e <= - Z.shiftl (Zpos m) e.
Proof.
  destruct (Z.le_gt_cases 0 e) as [Hpos|Hneg].
  - rewrite !Z.shiftl_mul_pow2 by lia. lia.
  - rewrite <- (Z.opp_involutive e).
    rewrite !Z.shiftl_opp_r, !Z.shiftr_div_pow2 by lia.
    assert (HP : 0 < 2 ^ (- e)) by (apply Z.pow_pos_nonneg; lia).
    pose proof (Z.div_mod (Zpos m) (2 ^ (- e)) ltac:(lia)) as H1.
    pose proof (Z.mod_pos_bound (Zpos m) (2 ^ (- e)) HP) as H2.
    pose proof (Z.div_mod (Zneg m) (2 ^ (- e)) ltac:(lia)) as H3.
    pose proof (Z.mod_pos_bound (Zneg m) (2 ^ (- e)) HP) as H4.
    nia.
Qed.

Lemma floor_mul_range_neg h u :
  INT_MIN <= h < 0 -> in_unit_interval u = true ->
  exists v, floor_to_int (double_mul (double_of_int h) u) = Some v /\ h <= v <= 0.
Proof.
  intros Hh Hu. unfold INT_MIN in Hh.
  replace h with (- (- h)) by lia.
  rewrite double_of_int_opp, double_mul_opp_l by (lia || assumption).
  destruct (mul_magnitude (- h) u) as [[s ->]|(m & e & -> & Hz)]; [lia | exact Hu | |].
  - exists 0. simpl. split; [reflexivity | lia].
  - pose proof (floor_opp m e) as Hf. exists (Z.shiftl (Zneg m) e).
    split; [|lia]. cbn [SFopp negb floor_to_int cond_Zopp]. cbv zeta.
    change (- Zpos m) with (Zneg m).
    replace (INT_MIN <=? Z.shiftl (Zneg m) e) with true
      by (symmetry; apply Z.leb_le; unfold INT_MIN; lia).
    replace (Z.shiftl (Zneg m) e <=? INT_MAX) with true
      by (symmetry; apply Z.leb_le; unfold INT_MAX; lia).
    reflexivity.
Qed.

Lemma floor_mul_zero u :
  in_unit_interval u = true ->
  floor_to_int (double_mul (double_of_int 0) u) = Some 0.
Proof.
  intros Hu. destruct u as [su| | |[] mu eu]; try discriminate; reflexivity.
Qed.

(** ** Comparisons *)

Lemma bounded_inv m e :
  bounded prec emax m e = true ->
  Zpos m < 2 ^ 53 /\ -1074 <= e /\ (-1074 < e -> 2 ^ 52 <= Zpos m).
Proof.
  unfold bounded, canonical_mantissa. intros H. apply andb_prop in H as [Hc _].
  apply Z.eqb_eq in Hc. rewrite fexp_double in Hc.
  pose proof (digits2_pos_bounds m) as Hd.
  split; [|split; [lia|]].
  - eapply Z.lt_le_trans; [apply Hd|]. apply Z.pow_le_mono_r; lia.
  - intros He. replace (Zpos (digits2_pos m) - 1) with 52 in Hd by lia. lia.
Qed.

(** A double of [[0, 1)] is below every double that is at least one. *)
Lemma unit_lt_at_least_one u x :
  in_unit_interval u = true -> at_least_one x = true -> double_lt u x = true.
Proof.
  intros Hu Hx. unfold double_lt, SFltb.
  destruct x as [sx|[]| |[] mx ex]; try discriminate;
    destruct u as [su| | |[] mu eu]; try discriminate; try reflexivity.
  simpl in Hu, Hx.
  apply andb_prop in Hu as [Hu Hu3]. apply andb_prop in Hu as [Hub Hu2].
  apply andb_prop in Hx as [Hxb Hx2].
  apply Z.ltb_lt in Hu2, Hu3. apply bounded_inv in Hub as (Hu53 & Hue & Hun).
  apply bounded_inv in Hxb as (Hx53 & Hxe & Hxn).
  assert (Hxge : 0 <= ex \/ (ex < 0 /\ 2 ^ (- ex) <= Zpos mx)).
  { apply orb_prop in Hx2 as [H|H]; [left; apply Z.leb_le, H|].
    destruct (Z.le_gt_cases 0 ex); [left; assumption | right].
    split; [lia | apply Z.leb_le, H]. }
  cbn [SFcompare]. destruct (Z.compare_spec eu ex) as [Heq|Hlt|Hgt]; [|reflexivity|].
  - subst ex. destruct Hxge as [?|[_ Hge]]; [lia|].
    assert (Hm : (mu < mx)%positive) by lia.
    change (Pos.compare_cont Eq mu mx) with (mu ?= mx)%positive.
    rewrite (proj2 (Pos.compare_lt_iff mu mx) Hm). reflexivity.
  - exfalso. specialize (Hun ltac:(lia)).
    assert (52 < - eu).
    { apply (Z.pow_lt_mono_r_iff 2); lia. }
    destruct Hxge as [?|[_ Hge]]; [lia|].
    assert (- ex < 53).
    { apply (Z.pow_lt_mono_r_iff 2); lia. }
    lia.
Qed.

Lemma unit_not_lt_not_positive u x :
  in_unit_interval u = true -> not_positive x = true -> double_lt u x = false.
Proof.
  intros Hu Hx. unfold double_lt, SFltb.
  destruct x as [sx|[]| |[] mx ex]; try discriminate;
    destruct u as [su| | |[] mu eu]; try discriminate; reflexivity.
Qed.

(** ** Exact products and sums *)

Lemma digits2_pos_unique m d :
  2 ^ (d - 1) <= Zpos m < 2 ^ d -> Zpos (digits2_pos m) = d.
Proof.
  intros Hd. pose proof (digits2_pos_bounds m) as Hm.
  assert (0 < d).
  { destruct (Z.le_gt_cases d 0) as [Hle|]; [|assumption].
    assert (2 ^ d <= 2 ^ 0) by (destruct (Z.eq_dec d 0) as [->|]; [lia|];
                                  rewrite Z.pow_neg_r by lia; simpl; lia).
    simpl in *. lia. }
  assert (Zpos (digits2_pos m) - 1 < d).
  { apply (Z.pow_lt_mono_r_iff 2); lia. }
  assert (d - 1 < Zpos (digits2_pos m)).
  { apply (Z.pow_lt_mono_r_iff 2); lia. }
  lia.
Qed.

(** One times a canonical double is that double: nothing is rounded. *)
Lemma double_mul_one m e :
  bounded prec emax m e = true ->
  double_mul (double_of_int 1) (S754_finite false m e) = S754_finite false m e.
Proof.
  intros Hb. pose proof Hb as Hb'. unfold bounded, canonical_mantissa in Hb'.
  apply andb_prop in Hb' as [Hc He]. apply Z.eqb_eq in Hc. apply Z.leb_le in He.
  pose proof (digits2_pos_bounds m) as Hd.
  change (double_of_int 1) with (S754_finite false 4503599627370496 (-52)).
  unfold double_mul. cbn [SFmul xorb]. rewrite binary_round_aux_core.
  assert (Hdig : Zpos (digits2_pos (4503599627370496 * m))
                 = Zpos (digits2_pos m) + 52).
  { apply digits2_pos_unique. rewrite Pos2Z.inj_mul.
    change (Zpos 4503599627370496) with (2 ^ 52).
    replace (Zpos (digits2_pos m) + 52 - 1) with (52 + (Zpos (digits2_pos m) - 1)) by lia.
    rewrite (Z.add_comm _ 52), !Z.pow_add_r by lia. lia. }
  assert (Hcore : round_core (Zpos (4503599627370496 * m)) (-52 + e)
                  = (fst (round_core (Zpos (4503599627370496 * m)) (-52 + e)), e)
                  /\ shr_m (fst (round_core (Zpos (4503599627370496 * m)) (-52 + e)))
                     = Zpos m).
  { unfold round_core.
    destruct (shr_fexp prec emax (Zpos (4503599627370496 * m)) (-52 + e) loc_Exact)
      as [mrs1 e1] eqn:H1.
    apply shr_fexp_exact in H1 as [He1 Hs1]; [|lia].
    cbn [Zdigits2] in He1. rewrite Hdig in He1.
    replace (Zpos (digits2_pos m) + 52 + (-52 + e)) with (Zpos (digits2_pos m) + e)
      in He1 by lia.
    rewrite Hc in He1. assert (He1' : e1 = e) by lia. clear He1. subst e1.
    replace (e - (-52 + e)) with 52 in Hs1 by lia.
    destruct Hs1 as [Hq (r & Hm & Hr & Hbit)].
    rewrite Pos2Z.inj_mul in Hm. change (Zpos 4503599627370496) with (2 ^ 52) in Hm.
    assert (Hq1 : shr_m mrs1 = Zpos m /\ r = 0).
    { destruct (Z.lt_trichotomy (shr_m mrs1) (Zpos m)) as [Hlt|[Heq|Hgt]]; [| |].
      - assert (shr_m mrs1 + 1 <= Zpos m) by lia.
        assert ((shr_m mrs1 + 1) * 2 ^ 52 <= Zpos m * 2 ^ 52)
          by (apply Z.mul_le_mono_nonneg_r; lia).
        lia.
      - rewrite Heq in Hm. lia.
      - assert (Zpos m + 1 <= shr_m mrs1) by lia.
        assert ((Zpos m + 1) * 2 ^ 52 <= shr_m mrs1 * 2 ^ 52)
          by (apply Z.mul_le_mono_nonneg_r; lia).
        lia. }
    destruct Hq1 as [Hq1 ->].
    assert (Hround : round_nearest_even (shr_m mrs1) (loc_of_shr_record mrs1) = Zpos m).
    { destruct mrs1 as [q b s]. simpl in *. destruct b; [lia|].
      destruct s; simpl; exact Hq1. }
    rewrite Hround.
    destruct (shr_fexp prec emax (Zpos m) e loc_Exact) as [mrs2 e2] eqn:H2.
    apply shr_fexp_exact in H2 as [He2 Hs2]; [|lia].
    cbn [Zdigits2] in He2. rewrite Hc in He2.
    assert (He2' : e2 = e) by lia. clear He2. subst e2.
    rewrite Z.sub_diag in Hs2. destruct Hs2 as [_ (r2 & Hm2 & Hr2 & _)].
    simpl in *. split; [reflexivity | lia]. }
  destruct Hcore as [Hpair Hm1]. rewrite Hpair. cbn [fst snd]. rewrite Hm1.
  apply Z.leb_le in He. rewrite He. reflexivity.
Qed.

Lemma double_sub_diag s m e :
  double_sub (S754_finite s m e) (S754_finite s m e) = S754_zero false.
Proof.
  unfold double_sub. cbn [SFsub]. rewrite Z.min_id.
  assert (Hal : shl_align m e e = (m, e)) by (unfold shl_align; rewrite Z.sub_diag; reflexivity).
  rewrite Hal. cbn [fst]. rewrite Z.sub_diag. reflexivity.
Qed.

(** ** Bounds in either order *)

Section AnyBounds.
Context `{E : UniformEngine}.
Variables (lo hi maxN : Z).
Hypothesis lo_size : is_size_t lo.
Hypothesis max_size : is_size_t maxN.

(** The sparse regime for bounds in either order: the range size and the
    values returned are taken modulo [2^64]. *)
Lemma ObtainDistinctSamples_sparse_wrap ds (w : globals) :
  maxN < to_size_t (hi - lo) ->
  ObtainDistinctSamples lo hi maxN ds w =
  '(rs, w') ← draws (Z.to_nat maxN) (to_int (to_size_t (hi - lo))) w;
  if forallb (fun o => o <? to_size_t (hi - lo)) (to_size_t <$> rs)
  then Some ((fun o => to_size_t (lo + o)) <$>
               hit_offsets (count_throws (zeros (to_size_t (hi - lo))) (to_size_t <$> rs)),
             w')
  else None.
Proof.
  intros Hsparse. rewrite ObtainDistinctSamples_unfold. cbv zeta.
  set (n := to_size_t (hi - lo)) in *.
  pose proof (to_size_t_range (hi - lo)) as Hn. fold n in Hn.
  unfold is_size_t, SIZE_MODULUS in *.
  replace (maxN <? n) with true by (symmetry; apply Z.ltb_lt; lia).
  destruct (draws (Z.to_nat maxN) (to_int n) w) as [[rs w']|] eqn:Hd; [|reflexivity].
  apply draws_inv in Hd as [Hlen _]. cbn [mbind option_bind].
  set (offs := to_size_t <$> rs).
  assert (Hoffs : Forall (fun o => 0 <= o < 2 ^ 64) offs).
  { apply Forall_fmap, Forall_true. intros r. apply to_size_t_range. }
  rewrite increments_eq.
  2:{ apply Forall_replicate. unfold offs. rewrite length_fmap, Hlen.
      unfold SIZE_MODULUS. lia. }
  2:{ eapply Forall_impl; [exact Hoffs|]. simpl. intros; lia. }
  rewrite length_zeros, Z2Nat.id by lia.
  destruct (forallb (fun o => o <? n) offs) eqn:Hall; [|reflexivity].
  cbn [mbind option_bind]. f_equal. f_equal.
  rewrite find_gt_zero by (apply count_throws_nonneg, Forall_replicate; lia).
  destruct (Z.ltb_spec 0 lo) as [Hpos|Hzero].
  - unfold add_scalar. apply list_fmap_ext. intros _ o _. f_equal. lia.
  - assert (lo = 0) as -> by lia.
    rewrite <- (list_fmap_id (hit_offsets _)) at 1.
    apply Forall_fmap_ext, List.Forall_forall.
    intros o Ho. apply In_hit_offsets in Ho as [Ho _].
    rewrite length_count_throws, length_zeros in Ho.
    symmetry. apply to_size_t_small. unfold is_size_t, SIZE_MODULUS. simpl. lia.
Qed.

End AnyBounds.

(** The dense branch for reversed bounds: the range size is
    [2^64 - (lo - hi)], and the values written run from [lo] to the last
    [size_t] and on from 0 to [hi - 1]. *)
Lemma wrapped_fill lo hi :
  is_size_t lo -> is_size_t hi -> hi < lo ->
  (fun j => to_size_t (lo + j)) <$> seqZ 0 (to_size_t (hi - lo))
  = seqZ lo (SIZE_MODULUS - lo) ++ seqZ 0 hi.
Proof.
  unfold is_size_t, to_size_t, SIZE_MODULUS. intros Hlo Hhi Hrev.
  replace ((hi - lo) mod 2 ^ 64) with ((2 ^ 64 - lo) + hi).
  2:{ symmetry. rewrite <- (Z.mod_add _ 1) by lia.
      replace (hi - lo + 1 * 2 ^ 64) with (2 ^ 64 - lo + hi) by lia.
      apply Z.mod_small. lia. }
  rewrite seqZ_app by lia. rewrite fmap_app. f_equal.
  - rewrite <- (Z.add_0_r lo) at 2. rewrite <- fmap_add_seqZ.
    apply Forall_fmap_ext, Forall_seqZ. intros j Hj. apply Z.mod_small. lia.
  - transitivity (Z.add (lo - 2 ^ 64) <$> seqZ (0 + (2 ^ 64 - lo)) hi).
    + apply Forall_fmap_ext, Forall_seqZ. intros j Hj.
      rewrite <- (Z.mod_add _ (-1)) by lia. rewrite Z.mod_small by lia. lia.
    + rewrite fmap_add_seqZ. f_equal. lia.
Qed.

Section Reversed.
Context `{E : UniformEngine}.
Variables (lo hi maxN : Z).
Hypothesis lo_size : is_size_t lo.
Hypothesis hi_size : is_size_t hi.
Hypothesis max_size : is_size_t maxN.
Hypothesis reversed : hi < lo.

Lemma reversed_range_size : to_size_t (hi - lo) = SIZE_MODULUS - (lo - hi).
Proof.
  unfold is_size_t, to_size_t, SIZE_MODULUS in *.
  rewrite <- (Z.mod_add _ 1) by lia.
  replace (hi - lo + 1 * 2 ^ 64) with (2 ^ 64 - (lo - hi)) by lia.
  apply Z.mod_small. lia.
Qed.

Lemma ObtainDistinctSamples_reversed_dense ds (w : globals) :
  SIZE_MODULUS - (lo - hi) <= maxN ->
  ObtainDistinctSamples lo hi maxN ds w
  = Some (seqZ lo (SIZE_MODULUS - lo) ++ seqZ 0 hi, w).
Proof.
  intros Hdense. rewrite ObtainDistinctSamples_unfold. cbv zeta.
  rewrite <- wrapped_fill by assumption.
  rewrite reversed_range_size.
  replace (maxN <? SIZE_MODULUS - (lo - hi)) with false
    by (symmetry; apply Z.ltb_ge; lia).
  reflexivity.
Qed.

Lemma ObtainDistinctSamples_reversed_values ds (w : globals) out w' :
  ObtainDistinctSamples lo hi maxN ds w = Some (out, w') ->
  Forall (fun v => lo <= v < SIZE_MODULUS \/ 0 <= v < hi) out.
Proof.
  destruct (Z.le_gt_cases (SIZE_MODULUS - (lo - hi)) maxN) as [Hdense|Hsparse].
  - rewrite ObtainDistinctSamples_reversed_dense by assumption. intros [= <- _].
    unfold is_size_t in *. apply Forall_app. split; apply Forall_seqZ; intros; lia.
  - rewrite ObtainDistinctSamples_sparse_wrap by (rewrite ?reversed_range_size; assumption).
    destruct (draws _ _ w) as [[rs w1]|]; [|discriminate]. cbn [mbind option_bind].
    destruct (forallb _ _); [|discriminate]. intros [= <- _].
    apply Forall_fmap, List.Forall_forall. intros o Ho.
    apply In_hit_offsets in Ho as [Ho _].
    rewrite length_count_throws, length_zeros, reversed_range_size in Ho.
    unfold is_size_t, to_size_t, SIZE_MODULUS in *. simpl.
    destruct (Z.lt_ge_cases (lo + o) (2 ^ 64)) as [Hlt|Hge].
    + left. rewrite Z.mod_small by lia. lia.
    + right. rewrite <- (Z.mod_add _ (-1)) by lia. rewrite Z.mod_small by lia. lia.
Qed.

End Reversed.

(** ** Draws and samples *)

Lemma NoDup_same_length (l k : list Z) :
  List.NoDup l -> List.NoDup k -> (forall x, In x l <-> In x k) -> length l = length k.
Proof.
  intros Hl Hk Hlk. apply Nat.le_antisymm.
  - apply NoDup_incl_length; [exact Hl|]. intros x Hx. apply Hlk, Hx.
  - apply NoDup_incl_length; [exact Hk|]. intros x Hx. apply Hlk, Hx.
Qed.

(** The state a call leaves, for arbitrary arguments. *)
Lemma ObtainDistinctSamples_state `{E : UniformEngine} lo hi maxN ds (w : globals) out w' :
  ObtainDistinctSamples lo hi maxN ds w = Some (out, w') ->
  w' = with_randGen (Nat.iter (draw_count lo hi maxN) advance (randGen w)) w.
Proof.
  rewrite ObtainDistinctSamples_unfold. unfold draw_count. cbv zeta.
  destruct (maxN <? to_size_t (hi - lo)).
  - destruct (draws _ _ w) as [[rs w1]|] eqn:Hd; [|discriminate].
    cbn [mbind option_bind]. destruct (increments _ _); [|discriminate].
    cbn [mbind option_bind]. intros [= _ <-]. apply draws_inv in Hd as [_ ->]. reflexivity.
  - intros [= _ <-]. simpl. symmetry. apply with_randGen_id.
Qed.

Lemma CustomRandomSeed_randGen `{E : UniformEngine} seed (w : globals) :
  randGen (CustomRandomSeed seed w) = engine_seed (to_uint32 seed).
Proof. reflexivity. Qed.

(** * Further properties *)

(** Reversed bounds, dense regime: with [hiExclusive < loInclusive] the
    range size is [2^64 - (loInclusive - hiExclusive)]; a budget that
    large makes the call return [loInclusive], ..., [2^64 - 1] followed by
    [0], ..., [hiExclusive - 1], drawing nothing; when [hiExclusive > 0]
    that sequence is not ascending. *)
Theorem reversed_bounds_dense_wraps `{E : UniformEngine} lo hi maxN ds (w : globals) :
  is_size_t lo -> is_size_t hi -> is_size_t maxN -> hi < lo ->
  SIZE_MODULUS - (lo - hi) <= maxN ->
  ObtainDistinctSamples lo hi maxN ds w
  = Some (seqZ lo (SIZE_MODULUS - lo) ++ seqZ 0 hi, w) /\
  (0 < hi -> ~ StronglySorted Z.lt (seqZ lo (SIZE_MODULUS - lo) ++ seqZ 0 hi)).
Proof.
  intros Hlo Hhi Hmax Hrev Hdense.
  split; [apply ObtainDistinctSamples_reversed_dense; assumption|].
  intros Hpos Hsorted. unfold is_size_t in *.
  rewrite (seqZ_cons lo) in Hsorted by lia. simpl in Hsorted.
  apply StronglySorted_inv in Hsorted as [_ Hall].
  apply Forall_app in Hall as [_ Hall].
  rewrite (seqZ_cons 0) in Hall by lia. apply Forall_cons in Hall as [Hlt _]. lia.
Qed.

Lemma reversed_bounds_dense_wraps_witness :
  @ObtainDistinctSamples lcg (2 ^ 64 - 2) 1 5 [7] (lcg_seeded 1)
  = Some ([2 ^ 64 - 2; 2 ^ 64 - 1; 0], lcg_seeded 1).
Proof.
  refine (proj1 (@reversed_bounds_dense_wraps lcg (2 ^ 64 - 2) 1 5 [7] (lcg_seeded 1)
                   _ _ _ _ _));
    unfold is_size_t, SIZE_MODULUS; lia.
Defined.

(** Reversed bounds, either regime: with [hiExclusive < loInclusive],
    every value a call returns lies in [[loInclusive, 2^64)] or in
    [[0, hiExclusive)]: the range wraps around the end of [size_t]. *)
Theorem reversed_bounds_values `{E : UniformEngine} lo hi maxN ds (w : globals) out w' :
  is_size_t lo -> is_size_t hi -> is_size_t maxN -> hi < lo ->
  ObtainDistinctSamples lo hi maxN ds w = Some (out, w') ->
  Forall (fun v => lo <= v < SIZE_MODULUS \/ 0 <= v < hi) out.
Proof. intros. eapply ObtainDistinctSamples_reversed_values; eassumption. Qed.

Lemma reversed_bounds_values_witness :
  fst <$> @ObtainDistinctSamples lcg (2 ^ 64 - 2) 3 4 [] (lcg_seeded 1)
  = Some [2 ^ 64 - 2; 2 ^ 64 - 1; 0] /\
  Forall (fun v => 2 ^ 64 - 2 <= v < SIZE_MODULUS \/ 0 <= v < 3)
         [2 ^ 64 - 2; 2 ^ 64 - 1; 0].
Proof.
  split; [reflexivity|].
  eapply (@reversed_bounds_values lcg (2 ^ 64 - 2) 3 4 [] (lcg_seeded 1));
    [unfold is_size_t, SIZE_MODULUS; lia ..| lia | reflexivity].
Defined.

(** The samples are the distinct draws: in a sparse call over a range
    whose size fits an [int], a value is returned exactly when its offset
    from [loInclusive] is one of the [maxNumSamples] values [RandInt]
    returned, and the number of values returned is the number of distinct
    offsets drawn. *)
Theorem sparse_samples_are_distinct_draws `{E : UniformEngine} `{!UnitUniform E}
    lo hi maxN ds (w : globals) :
  is_size_t lo -> is_size_t hi -> is_size_t maxN -> lo <= hi ->
  maxN < hi - lo <= INT_MAX ->
  exists rs out w',
    draws (Z.to_nat maxN) (hi - lo) w = Some (rs, w') /\
    ObtainDistinctSamples lo hi maxN ds w = Some (out, w') /\
    (forall v, In v out <-> exists r, In r rs /\ v = lo + r) /\
    length out = length (remove_dups rs).
Proof.
  intros Hlo Hhi Hmax Hle Hsparse.
  destruct (sparse_regime_fits_int lo hi maxN Hlo Hhi Hmax Hle ds w Hsparse)
    as (rs & w' & Hd & _ & Hrs & Hcall).
  rewrite to_int_small in Hd by (unfold is_size_t, INT_MIN, INT_MAX in *; lia).
  exists rs, (sparse_result lo (hi - lo) rs), w'.
  split; [exact Hd|]. split; [exact Hcall|].
  assert (Hin : forall v, In v (sparse_result lo (hi - lo) rs)
                          <-> exists r, In r rs /\ v = lo + r)
    by (intros v; apply In_sparse_result; exact Hrs).
  split; [exact Hin|].
  rewrite <- (length_fmap (Z.add lo) (remove_dups rs)).
  apply NoDup_same_length.
  - apply StronglySorted_lt_NoDup, sparse_result_sorted.
  - apply NoDup_ListNoDup, NoDup_fmap_2; [intros x y; lia | apply NoDup_remove_dups].
  - intros v. rewrite Hin, <- list_elem_of_In, list_elem_of_fmap.
    split; intros (r & H1 & H2).
    + exists r. split; [exact H2|]. apply elem_of_remove_dups, list_elem_of_In, H1.
    + exists r. split; [|exact H1]. apply list_elem_of_In, elem_of_remove_dups, H2.
Qed.

Lemma sparse_samples_are_distinct_draws_witness :
  (forall v, In v [11; 12; 14; 17] <-> exists r, In r [4; 1; 2; 4; 7; 1] /\ v = 10 + r) /\
  length [11; 12; 14; 17] = length (remove_dups [4; 1; 2; 4; 7; 1]).
Proof.
  destruct (@sparse_samples_are_distinct_draws lcg lcg_unit 10 18 6 [] (lcg_seeded 1))
    as (rs & out & w' & Hd & Hcall & Hin & Hlen);
    [unfold is_size_t, SIZE_MODULUS, INT_MAX; lia ..|].
  assert (Hrs : fst <$> @draws lcg (Z.to_nat 6) (18 - 10) (lcg_seeded 1)
                = Some [4; 1; 2; 4; 7; 1]) by reflexivity.
  assert (Hout : fst <$> @ObtainDistinctSamples lcg 10 18 6 [] (lcg_seeded 1)
                 = Some [11; 12; 14; 17]) by reflexivity.
  rewrite Hd in Hrs. rewrite Hcall in Hout. simpl in Hrs, Hout.
  injection Hrs as <-. injection Hout as <-. split; assumption.
Defined.

(** Consecutive calls share one stream: after two calls that return, one
    after the other, [randGen] has been advanced by the number of draws
    of the first plus that of the second (a dense call counts for none),
    and nothing else of the process-wide state has changed. *)
Theorem consecutive_calls_share_stream `{E : UniformEngine}
    lo1 hi1 max1 ds1 lo2 hi2 max2 ds2 (w : globals) out1 w1 out2 w2 :
  ObtainDistinctSamples lo1 hi1 max1 ds1 w = Some (out1, w1) ->
  ObtainDistinctSamples lo2 hi2 max2 ds2 w1 = Some (out2, w2) ->
  w2 = with_randGen
         (Nat.iter (draw_count lo1 hi1 max1 + draw_count lo2 hi2 max2) advance (randGen w))
         w.
Proof.
  intros H1 H2. apply ObtainDistinctSamples_state in H1, H2. subst w1 w2.
  rewrite Nat.add_comm, Nat.iter_add. reflexivity.
Qed.

Lemma consecutive_calls_share_stream_witness :
  let w1 := @with_randGen lcg 368800899 (lcg_seeded 1) in
  let w2 := @with_randGen lcg 1062517886 (lcg_seeded 1) in
  @ObtainDistinctSamples lcg 10 18 6 [] (lcg_seeded 1) = Some ([11; 12; 14; 17], w1) /\
  @ObtainDistinctSamples lcg 100 120 3 [] w1 = Some ([104; 109; 114], w2) /\
  w2 = @with_randGen lcg (Nat.iter (6 + 3) (@advance lcg) 1) (lcg_seeded 1).
Proof.
  intros w1 w2.
  assert (H1 : @ObtainDistinctSamples lcg 10 18 6 [] (lcg_seeded 1)
               = Some ([11; 12; 14; 17], w1)) by reflexivity.
  assert (H2 : @ObtainDistinctSamples lcg 100 120 3 [] w1
               = Some ([104; 109; 114], w2)) by reflexivity.
  split; [exact H1|]. split; [exact H2|].
  exact (@consecutive_calls_share_stream lcg 10 18 6 [] 100 120 3 [] _ _ _ _ _ H1 H2).
Defined.

(** Only the low 32 bits of the seed reach [randGen]: two seeds that agree
    modulo [2^32] give the same samples, whether the generator was seeded
    by [RandomSeed] (in a build where it seeds) or by [CustomRandomSeed],
    and whatever the state before the seeding was. *)
Theorem seed_modulo_32_bits `{E : UniformEngine} b seed1 seed2 lo hi maxN ds1 ds2
    (w1 w2 : globals) :
  seed1 mod 2 ^ 32 = seed2 mod 2 ^ 32 ->
  binding_test b = false ->
  fst <$> ObtainDistinctSamples lo hi maxN ds1 (RandomSeed b seed1 w1)
  = fst <$> ObtainDistinctSamples lo hi maxN ds2 (RandomSeed b seed2 w2) /\
  fst <$> ObtainDistinctSamples lo hi maxN ds1 (CustomRandomSeed seed1 w1)
  = fst <$> ObtainDistinctSamples lo hi maxN ds2 (RandomSeed b seed2 w2) /\
  fst <$> ObtainDistinctSamples lo hi maxN ds1 (CustomRandomSeed seed1 w1)
  = fst <$> ObtainDistinctSamples lo hi maxN ds2 (CustomRandomSeed seed2 w2).
Proof.
  intros Hseed Hb.
  assert (Hsame : forall ds1 ds2 (w1 w2 : globals),
            randGen w1 = randGen w2 ->
            fst <$> ObtainDistinctSamples lo hi maxN ds1 w1
            = fst <$> ObtainDistinctSamples lo hi maxN ds2 w2).
  { intros d1 d2 v1 v2 Hg.
    rewrite (ObtainDistinctSamples_regen lo hi maxN d1 d2 v1 v2 Hg).
    destruct (ObtainDistinctSamples lo hi maxN d1 v1) as [[out w']|]; reflexivity. }
  repeat split; apply Hsame;
    rewrite ?RandomSeed_randGen, ?CustomRandomSeed_randGen by exact Hb;
    unfold to_uint32; rewrite Hseed; reflexivity.
Qed.

Lemma seed_modulo_32_bits_witness :
  fst <$> @ObtainDistinctSamples lcg 10 18 6 [] (lcg_seeded 1)
  = fst <$> @ObtainDistinctSamples lcg 10 18 6 [] (lcg_seeded (2 ^ 32 + 1)).
Proof.
  refine (proj1 (@seed_modulo_32_bits lcg (Build false false) 1 (2 ^ 32 + 1)
                   10 18 6 [] [] _ _ _ _)); reflexivity.
Defined.

(** [FixedRandomSeed] repeats itself: once it has been called, any later
    call leaves the process-wide state exactly as the first call left it,
    whatever [rand()] would return by then and whatever was done to the
    generators in between; the first call seeds with what [rand()]
    returned. *)
Theorem FixedRandomSeed_repeats `{E : UniformEngine} r1 r2 static (w w2 : globals) :
  FixedRandomSeed r2 (fst (FixedRandomSeed r1 static w)) w2 = FixedRandomSeed r1 static w /\
  fst (FixedRandomSeed r1 None w) = Some (to_size_t r1).
Proof. split; [destruct static|]; reflexivity. Qed.

(** ** The other draws *)

Section Overloads.
Context `{E : UniformEngine} `{!UnitUniform E}.

Lemma Random_advance (w : globals) :
  snd (Random w) = with_randGen (advance (randGen w)) w /\
  in_unit_interval (fst (Random w)) = true.
Proof.
  pose proof (uniform_real_unit (randGen w)) as Hu.
  unfold Random, advance. destruct (uniform_real (randGen w)) as [u g]. auto.
Qed.

Lemma RandInt_nonpositive h (w : globals) :
  INT_MIN <= h <= 0 ->
  exists v, RandInt h w = Some (v, with_randGen (advance (randGen w)) w) /\ h <= v <= 0.
Proof.
  intros Hh. pose proof (uniform_real_unit (randGen w)) as Hu.
  unfold RandInt, advance. destruct (uniform_real (randGen w)) as [u g]. simpl in *.
  destruct (Z.eq_dec h 0) as [->|Hnz].
  - rewrite floor_mul_zero by exact Hu. exists 0. split; [reflexivity | lia].
  - destruct (floor_mul_range_neg h u) as (v & -> & Hv); [lia | exact Hu |].
    exists v. auto.
Qed.

Lemma int_result_Some z : INT_MIN <= z <= INT_MAX -> int_result z = Some z.
Proof.
  intros Hz. unfold int_result.
  replace (INT_MIN <=? z) with true by (symmetry; apply Z.leb_le; lia).
  replace (z <=? INT_MAX) with true by (symmetry; apply Z.leb_le; lia).
  reflexivity.
Qed.

Lemma int_result_None z : ~ INT_MIN <= z <= INT_MAX -> int_result z = None.
Proof.
  intros Hz. unfold int_result.
  destruct (Z.leb_spec INT_MIN z); destruct (Z.leb_spec z INT_MAX); simpl;
    try reflexivity. lia.
Qed.

(** [RandInt(lo, hi)] is [lo] plus [RandInt(hi - lo)] when neither the
    subtraction nor the addition overflows. *)
Lemma RandIntBetween_RandInt lo hi (w : globals) v w' :
  INT_MIN <= hi - lo <= INT_MAX ->
  RandInt (hi - lo) w = Some (v, w') ->
  INT_MIN <= lo + v <= INT_MAX ->
  RandIntBetween lo hi w = Some (lo + v, w').
Proof.
  intros Hd Hr Hs. unfold RandIntBetween, RandInt in *.
  rewrite int_result_Some by exact Hd. cbn [mbind option_bind].
  destruct (uniform_real (randGen w)) as [u g].
  destruct (floor_to_int _) as [z|]; [|discriminate]. cbn [mbind option_bind] in *.
  injection Hr as -> <-. rewrite int_result_Some by exact Hs. reflexivity.
Qed.

End Overloads.

(** [RandInt] with a bound that is zero or negative: for an [int]
    [hiExclusive <= 0] the value returned lies in [[hiExclusive, 0]]; in
    particular [RandInt(0)] returns 0, the bound it is said to exclude. *)
Theorem RandInt_nonpositive_bound `{E : UniformEngine} `{!UnitUniform E}
    hiExclusive (w : globals) :
  INT_MIN <= hiExclusive <= 0 ->
  exists v,
    RandInt hiExclusive w = Some (v, with_randGen (advance (randGen w)) w) /\
    hiExclusive <= v <= 0.
Proof. apply RandInt_nonpositive. Qed.

Lemma RandInt_nonpositive_bound_witness :
  (exists v, @RandInt lcg (-8) (lcg_seeded 1)
             = Some (v, @with_randGen lcg (@advance lcg 1) (lcg_seeded 1)) /\ -8 <= v <= 0) /\
  (exists v, @RandInt lcg 0 (lcg_seeded 1)
             = Some (v, @with_randGen lcg (@advance lcg 1) (lcg_seeded 1)) /\ 0 <= v <= 0).
Proof.
  split.
  - apply (@RandInt_nonpositive_bound lcg lcg_unit (-8) (lcg_seeded 1)).
    unfold INT_MIN. lia.
  - apply (@RandInt_nonpositive_bound lcg lcg_unit 0 (lcg_seeded 1)).
    unfold INT_MIN. lia.
Defined.

Section Between.
Context `{E : UniformEngine} `{!UnitUniform E}.
Variables (lo hiExclusive : Z) (w : globals).
Hypothesis lo_int : INT_MIN <= lo <= INT_MAX.
Hypothesis hi_int : INT_MIN <= hiExclusive <= INT_MAX.

Lemma RandIntBetween_proper :
  lo < hiExclusive -> hiExclusive - lo <= INT_MAX ->
  exists v,
    RandIntBetween lo hiExclusive w = Some (v, with_randGen (advance (randGen w)) w) /\
    lo <= v < hiExclusive.
Proof.
  intros Hlt Hd.
  destruct (RandInt_range (hiExclusive - lo) w) as (v & Hv & Hrange); [lia|].
  exists (lo + v). split; [|lia].
  apply RandIntBetween_RandInt; [unfold INT_MIN, INT_MAX in *; lia | exact Hv | lia].
Qed.

Lemma RandIntBetween_backwards :
  hiExclusive <= lo -> INT_MIN <= hiExclusive - lo ->
  exists v,
    RandIntBetween lo hiExclusive w = Some (v, with_randGen (advance (randGen w)) w) /\
    hiExclusive <= v <= lo.
Proof.
  intros Hle Hd.
  destruct (RandInt_nonpositive (hiExclusive - lo) w) as (v & Hv & Hrange); [lia|].
  exists (lo + v). split; [|lia].
  apply RandIntBetween_RandInt; [unfold INT_MIN, INT_MAX in *; lia | exact Hv | lia].
Qed.

End Between.

(** [RandInt(lo, hiExclusive)] over a proper range: for [int]s
    [lo < hiExclusive] whose difference fits an [int], the value returned
    satisfies [lo <= v < hiExclusive], and [randGen] is advanced by one
    draw. *)
Theorem RandIntBetween_in_range `{E : UniformEngine} `{!UnitUniform E}
    lo hiExclusive (w : globals) :
  INT_MIN <= lo <= INT_MAX -> INT_MIN <= hiExclusive <= INT_MAX ->
  lo < hiExclusive -> hiExclusive - lo <= INT_MAX ->
  exists v,
    RandIntBetween lo hiExclusive w = Some (v, with_randGen (advance (randGen w)) w) /\
    lo <= v < hiExclusive.
Proof. apply RandIntBetween_proper. Qed.

Lemma RandIntBetween_in_range_witness :
  exists v,
    @RandIntBetween lcg 10 18 (lcg_seeded 1)
    = Some (v, @with_randGen lcg (@advance lcg 1) (lcg_seeded 1)) /\
    10 <= v < 18.
Proof.
  apply (@RandIntBetween_in_range lcg lcg_unit 10 18 (lcg_seeded 1));
    unfold INT_MIN, INT_MAX; lia.
Defined.

(** [RandInt(lo, hiExclusive)] over an empty or reversed range: for
    [int]s [hiExclusive <= lo] whose difference fits an [int], the value
    returned satisfies [hiExclusive <= v <= lo]; with [hiExclusive = lo] it
    is [lo] itself. *)
Theorem RandIntBetween_reversed `{E : UniformEngine} `{!UnitUniform E}
    lo hiExclusive (w : globals) :
  INT_MIN <= lo <= INT_MAX -> INT_MIN <= hiExclusive <= INT_MAX ->
  hiExclusive <= lo -> INT_MIN <= hiExclusive - lo ->
  exists v,
    RandIntBetween lo hiExclusive w = Some (v, with_randGen (advance (randGen w)) w) /\
    hiExclusive <= v <= lo.
Proof. apply RandIntBetween_backwards. Qed.

Lemma RandIntBetween_reversed_witness :
  (exists v,
     @RandIntBetween lcg 18 10 (lcg_seeded 1)
     = Some (v, @with_randGen lcg (@advance lcg 1) (lcg_seeded 1)) /\
     10 <= v <= 18) /\
  (exists v,
     @RandIntBetween lcg 7 7 (lcg_seeded 1)
     = Some (v, @with_randGen lcg (@advance lcg 1) (lcg_seeded 1)) /\
     7 <= v <= 7).
Proof.
  split.
  - apply (@RandIntBetween_reversed lcg lcg_unit 18 10 (lcg_seeded 1));
      unfold INT_MIN, INT_MAX; lia.
  - apply (@RandIntBetween_reversed lcg lcg_unit 7 7 (lcg_seeded 1));
      unfold INT_MIN, INT_MAX; lia.
Defined.

(** [RandInt(lo, hiExclusive)] is defined exactly when the subtraction
    [hiExclusive - lo] does not overflow: for two [int]s the call returns
    if and only if their difference fits an [int]. *)
Theorem RandIntBetween_defined_iff `{E : UniformEngine} `{!UnitUniform E}
    lo hiExclusive (w : globals) :
  INT_MIN <= lo <= INT_MAX -> INT_MIN <= hiExclusive <= INT_MAX ->
  (is_Some (RandIntBetween lo hiExclusive w)
   <-> INT_MIN <= hiExclusive - lo <= INT_MAX).
Proof.
  intros Hlo Hhi. split.
  - intros [r Hr]. unfold RandIntBetween in Hr.
    destruct (Z.le_gt_cases INT_MIN (hiExclusive - lo));
      destruct (Z.le_gt_cases (hiExclusive - lo) INT_MAX); try lia;
      rewrite int_result_None in Hr by lia; discriminate Hr.
  - intros Hd. destruct (Z.lt_ge_cases lo hiExclusive) as [Hlt|Hge].
    + destruct (RandIntBetween_proper lo hiExclusive w) as (v & -> & _);
        [lia..|eauto].
    + destruct (RandIntBetween_backwards lo hiExclusive w) as (v & -> & _);
        [lia..|eauto].
Qed.

Lemma RandIntBetween_defined_iff_witness :
  (is_Some (@RandIntBetween lcg 10 18 (lcg_seeded 1)) <-> INT_MIN <= 18 - 10 <= INT_MAX) /\
  (is_Some (@RandIntBetween lcg (-2) INT_MAX (lcg_seeded 1))
   <-> INT_MIN <= INT_MAX - -2 <= INT_MAX).
Proof.
  split.
  - apply (@RandIntBetween_defined_iff lcg lcg_unit 10 18 (lcg_seeded 1));
      unfold INT_MIN, INT_MAX; lia.
  - apply (@RandIntBetween_defined_iff lcg lcg_unit (-2) INT_MAX (lcg_seeded 1));
      unfold INT_MIN, INT_MAX; lia.
Defined.

(** [RandBernoulli] with a parameter of at least one: for every valid
    double [input >= 1], infinity included, the value returned is 1,
    whatever is drawn; [randGen] is advanced by one draw. *)
Theorem RandBernoulli_certain `{E : UniformEngine} `{!UnitUniform E}
    input (w : globals) :
  at_least_one input = true ->
  RandBernoulli input w = (double_of_int 1, with_randGen (advance (randGen w)) w).
Proof.
  intros Hin. destruct (Random_advance w) as [Hs Hu]. unfold RandBernoulli.
  destruct (Random w) as [u w']. simpl in Hs, Hu. subst w'.
  rewrite unit_lt_at_least_one by assumption. reflexivity.
Qed.

Lemma RandBernoulli_certain_witness :
  at_least_one (double_of_int 1) = true /\
  @RandBernoulli lcg (double_of_int 1) (lcg_seeded 1)
  = (double_of_int 1, @with_randGen lcg (@advance lcg 1) (lcg_seeded 1)).
Proof.
  assert (H : at_least_one (double_of_int 1) = true) by reflexivity.
  split; [exact H|].
  exact (@RandBernoulli_certain lcg lcg_unit (double_of_int 1) (lcg_seeded 1) H).
Defined.

(** [RandBernoulli] with a parameter that is not positive: for [input] a
    zero, a negative double, minus infinity or a NaN, the value returned
    is 0, whatever is drawn; [randGen] is advanced by one draw all the
    same. *)
Theorem RandBernoulli_never `{E : UniformEngine} `{!UnitUniform E}
    input (w : globals) :
  not_positive input = true ->
  RandBernoulli input w = (double_of_int 0, with_randGen (advance (randGen w)) w).
Proof.
  intros Hin. destruct (Random_advance w) as [Hs Hu]. unfold RandBernoulli.
  destruct (Random w) as [u w']. simpl in Hs, Hu. subst w'.
  rewrite unit_not_lt_not_positive by assumption. reflexivity.
Qed.

Lemma RandBernoulli_never_witness :
  @RandBernoulli lcg S754_nan (lcg_seeded 1)
  = (double_of_int 0, @with_randGen lcg (@advance lcg 1) (lcg_seeded 1)) /\
  @RandBernoulli lcg (double_of_int (-3)) (lcg_seeded 1)
  = (double_of_int 0, @with_randGen lcg (@advance lcg 1) (lcg_seeded 1)).
Proof.
  split.
  - apply (@RandBernoulli_never lcg lcg_unit S754_nan (lcg_seeded 1)). reflexivity.
  - apply (@RandBernoulli_never lcg lcg_unit (double_of_int (-3)) (lcg_seeded 1)).
    reflexivity.
Defined.

(** [Random(lo, hi)] over a degenerate range: for a finite non-zero
    double [lo], [Random(lo, lo)] returns [lo] exactly, and still advances
    [randGen] by one draw. *)
Theorem RandomBetween_degenerate `{E : UniformEngine} `{!UnitUniform E}
    s m e (w : globals) :
  RandomBetween (S754_finite s m e) (S754_finite s m e) w
  = (S754_finite s m e, with_randGen (advance (randGen w)) w).
Proof.
  pose proof (uniform_real_unit (randGen w)) as Hu.
  unfold RandomBetween, advance. destruct (uniform_real (randGen w)) as [u g].
  simpl in Hu. rewrite double_sub_diag. f_equal. unfold double_mul, double_add.
  destruct u as [su| | |[] mu eu]; try discriminate; reflexivity.
Qed.

Lemma RandomBetween_degenerate_witness :
  @RandomBetween lcg (double_of_int 3) (double_of_int 3) (lcg_seeded 1)
  = (double_of_int 3, @with_randGen lcg (@advance lcg 1) (lcg_seeded 1)).
Proof.
  exact (@RandomBetween_degenerate lcg lcg_unit false 6755399441055744 (-51) (lcg_seeded 1)).
Defined.

(** [Random(0.0, 1.0)] is [Random()]: the draw comes back unchanged, no
    operation rounds (a zero comes back as [+0.0]). *)
Theorem RandomBetween_unit `{E : UniformEngine} `{!UnitUniform E} (w : globals) :
  RandomBetween (double_of_int 0) (double_of_int 1) w
  = (match fst (Random w) with
     | S754_zero _ => S754_zero false
     | u => u
     end, snd (Random w)).
Proof.
  pose proof (uniform_real_unit (randGen w)) as Hu.
  unfold RandomBetween, Random. destruct (uniform_real (randGen w)) as [u g].
  simpl in Hu. cbn [fst snd]. f_equal.
  change (double_sub (double_of_int 1) (double_of_int 0)) with (double_of_int 1).
  destruct u as [su| | |[] mu eu]; try discriminate.
  - destruct su; reflexivity.
  - simpl in Hu. apply andb_prop in Hu as [Hu _]. apply andb_prop in Hu as [Hb _].
    rewrite double_mul_one by exact Hb. reflexivity.
Qed.

Lemma RandomBetween_unit_witness :
  @RandomBetween lcg (double_of_int 0) (double_of_int 1) (lcg_seeded 1)
  = (S754_finite false 4628530184847360 (-53),
     @with_randGen lcg (@advance lcg 1) (lcg_seeded 1)).
Proof. exact (@RandomBetween_unit lcg lcg_unit (lcg_seeded 1)). Defined.

(** ** Ranges wider than an [int] *)

Lemma to_int_le n : 0 <= n -> to_int n <= n.
Proof.
  intros Hn. unfold to_int.
  pose proof (Z.mod_le (n + 2 ^ 31) (2 ^ 32) ltac:(lia) ltac:(lia)). lia.
Qed.

Lemma to_int_range n : INT_MIN <= to_int n <= INT_MAX.
Proof.
  unfold to_int, INT_MIN, INT_MAX.
  pose proof (Z.mod_pos_bound (n + 2 ^ 31) (2 ^ 32) ltac:(lia)). lia.
Qed.

Lemma draws_total_nonneg `{E : UniformEngine} `{!UnitUniform E} k h (w : globals) :
  0 <= h <= INT_MAX ->
  exists rs, draws k h w = Some (rs, with_randGen (Nat.iter k advance (randGen w)) w) /\
             Forall (fun r => 0 <= r < Z.max 1 h) rs.
Proof.
  intros Hh. destruct (Z.eq_dec h 0) as [->|Hnz].
  - revert w. induction k as [|k IH]; intros w.
    + exists []. simpl. rewrite with_randGen_id. auto.
    + destruct (RandInt_nonpositive 0 w) as (r & Hr & Hrange); [unfold INT_MIN; lia|].
      destruct (IH (with_randGen (advance (randGen w)) w)) as (rs & Hd & Hall).
      exists (r :: rs). simpl. rewrite Hr. simpl. rewrite Hd. simpl.
      rewrite <- Nat.iter_succ_r. split; [reflexivity|]. constructor; [lia | exact Hall].
  - destruct (draws_total k h w) as (rs & Hd & _ & Hall); [lia|].
    exists rs. split; [exact Hd|]. eapply Forall_impl; [exact Hall|]. simpl. intros; lia.
Qed.

(** The range a sparse call really samples: when the range size converted
    to [int] is not negative, the call returns and every value lies among
    the first [(int) rangeSize] values of the range (the first one when
    that is 0), however large the range is. *)
Theorem sparse_range_is_truncated `{E : UniformEngine} `{!UnitUniform E}
    lo hi maxN ds (w : globals) :
  is_size_t lo -> is_size_t hi -> is_size_t maxN -> lo <= hi ->
  maxN < hi - lo -> 0 <= to_int (hi - lo) ->
  exists out w',
    ObtainDistinctSamples lo hi maxN ds w = Some (out, w') /\
    Forall (fun v => lo <= v < lo + Z.max 1 (to_int (hi - lo))) out /\
    Z.max 1 (to_int (hi - lo)) <= hi - lo.
Proof.
  intros Hlo Hhi Hmax Hle Hsparse Hint. unfold is_size_t in Hmax.
  pose proof (to_int_le (hi - lo) ltac:(lia)) as Hti.
  pose proof (to_int_range (hi - lo)) as Htr.
  rewrite ObtainDistinctSamples_sparse by (assumption || lia).
  destruct (draws_total_nonneg (Z.to_nat maxN) (to_int (hi - lo)) w)
    as (rs & -> & Hrs); [lia|].
  cbn [mbind option_bind].
  assert (Hrs' : Forall (fun r => 0 <= r < hi - lo) rs)
    by (eapply Forall_impl; [exact Hrs|]; simpl; intros; lia).
  assert (Hn : is_size_t (hi - lo)) by (unfold is_size_t in *; lia).
  rewrite (fmap_to_size_t_id (hi - lo)) by assumption.
  replace (forallb (fun o => o <? hi - lo) rs) with true
    by (symmetry; apply forallb_ltb; eapply Forall_impl; [exact Hrs'|]; simpl; intros; lia).
  eexists _, _. split; [reflexivity|]. split; [|lia].
  apply List.Forall_forall. intros v Hv.
  apply In_sparse_result in Hv as (o & Ho & ->); [|exact Hrs'].
  pose proof (proj1 (List.Forall_forall _ _) Hrs o Ho) as Hr. simpl in Hr. lia.
Qed.

Lemma sparse_range_is_truncated_witness :
  exists out w',
    @ObtainDistinctSamples lcg 0 (2 ^ 32 + 5) 3 [] (lcg_seeded 1) = Some (out, w') /\
    Forall (fun v => 0 <= v < 0 + Z.max 1 (to_int (2 ^ 32 + 5 - 0))) out /\
    Z.max 1 (to_int (2 ^ 32 + 5 - 0)) <= 2 ^ 32 + 5 - 0.
Proof.
  apply (@sparse_range_is_truncated lcg lcg_unit 0 (2 ^ 32 + 5) 3 [] (lcg_seeded 1));
    unfold is_size_t, SIZE_MODULUS; try lia.
  change (to_int (2 ^ 32 + 5 - 0)) with 5. lia.
Defined.

(** ** The normal draws *)

Lemma binary_normalize_opp h e0 :
  0 < h ->
  binary_normalize prec emax (- h) e0 false = SFopp (binary_normalize prec emax h e0 false).
Proof.
  destruct h as [|p|p]; try lia. intros _. simpl. unfold binary_round.
  destruct (shl_align p e0 _) as [mz ez]. apply binary_round_aux_opp.
Qed.

Lemma lcg_signed_finite g : finite_double (lcg_signed g) = true.
Proof.
  unfold lcg_signed. pose proof (Z.mod_pos_bound g (2 ^ 31) ltac:(lia)) as Hg.
  set (z := g mod 2 ^ 31 - 2 ^ 30).
  destruct (Z.lt_trichotomy z 0) as [Hneg|[->|Hpos]]; [| reflexivity |].
  - replace z with (- (- z)) by lia. rewrite binary_normalize_opp by lia.
    destruct (binary_normalize_pos (- z) (-28)) as (m & e & -> & _ & _ & Hb);
      [unfold z; lia | lia | exact Hb].
  - destruct (binary_normalize_pos z (-28)) as (m & e & -> & _ & _ & Hb);
      [unfold z; lia | lia | exact Hb].
Qed.

Lemma lcg_normal_finite : @FiniteNormal lcg lcg_normal.
Proof. intros st g. apply lcg_signed_finite. Qed.

Lemma double_mul_one_signed s m e :
  bounded prec emax m e = true ->
  double_mul (double_of_int 1) (S754_finite s m e) = S754_finite s m e.
Proof.
  intros Hb. destruct s; [|apply double_mul_one, Hb].
  pose proof (double_mul_one m e Hb) as H1. revert H1.
  change (double_of_int 1) with (S754_finite false 4503599627370496 (-52)).
  unfold double_mul. cbn [SFmul xorb]. intros H1.
  rewrite binary_round_aux_opp, H1. reflexivity.
Qed.

Section NormalProofs.
Context `{E : UniformEngine} `{N : !NormalDistribution} `{!FiniteNormal N}.

Lemma RandNormal_draw st (w : globals) :
  exists z st' w', RandNormal st w = (z, st', w') /\ finite_double z = true /\
    forall mean variance,
      RandNormalWith mean variance st w =
      (double_add (double_mul variance z) mean, st', w').
Proof.
  pose proof (normal_real_finite st (randGen w)) as Hf.
  unfold RandNormal, RandNormalWith.
  destruct (normal_real st (randGen w)) as [[z st'] g]. cbn [fst] in Hf.
  exists z, st', (with_randGen g w). auto.
Qed.

End NormalProofs.

(** [RandNormal(0.0, 1.0)] returns the number [RandNormal()] would
    return from the same state, a negative zero apart, which comes out as
    [+0.0]; the two leave the same state behind. *)
Theorem RandNormal_standard `{E : UniformEngine} `{N : !NormalDistribution}
    `{!FiniteNormal N} st (w : globals) :
  exists z st' w',
    RandNormal st w = (z, st', w') /\
    RandNormalWith (double_of_int 0) (double_of_int 1) st w =
      (match z with S754_zero _ => S754_zero false | _ => z end, st', w').
Proof.
  destruct (RandNormal_draw st w) as (z & st' & w' & H1 & Hf & H2).
  exists z, st', w'. split; [exact H1|]. rewrite H2. f_equal. f_equal.
  destruct z as [s| | |s m e]; try discriminate.
  - destruct s; reflexivity.
  - cbn [finite_double] in Hf. rewrite double_mul_one_signed by exact Hf. reflexivity.
Qed.

Lemma RandNormal_standard_witness :
  exists z st' w',
    @RandNormal lcg lcg_normal O (lcg_seeded 1) = (z, st', w') /\
    @RandNormalWith lcg lcg_normal (double_of_int 0) (double_of_int 1) O (lcg_seeded 1) =
      (match z with S754_zero _ => S754_zero false | _ => z end, st', w').
Proof. exact (@RandNormal_standard lcg lcg_normal lcg_normal_finite O (lcg_seeded 1)). Defined.

(** With a zero variance argument [RandNormal(mean, variance)] returns the
    mean itself, whatever is drawn, and still consumes one draw; a zero mean
    may come back with the other sign. *)
Theorem RandNormal_zero_variance `{E : UniformEngine} `{N : !NormalDistribution}
    `{!FiniteNormal N} mean st (w : globals) :
  exists r,
    RandNormalWith mean (double_of_int 0) st w =
      (r, snd (fst (RandNormal st w)), snd (RandNormal st w)) /\
    match mean with
    | S754_zero _ => exists s, r = S754_zero s
    | _ => r = mean
    end.
Proof.
  destruct (RandNormal_draw st w) as (z & st' & w' & H1 & Hf & H2).
  rewrite H1, H2. cbn [fst snd]. eexists. split; [reflexivity|].
  change (double_of_int 0) with (S754_zero false).
  destruct z as [s| | |s m e]; try discriminate.
  - destruct mean as [sm|sm| |sm mm em]; try reflexivity.
    destruct s, sm; eexists; reflexivity.
  - destruct mean as [sm|sm| |sm mm em]; try reflexivity.
    destruct s, sm; eexists; reflexivity.
Qed.

Lemma RandNormal_zero_variance_witness :
  exists r,
    @RandNormalWith lcg lcg_normal (double_of_int 3) (double_of_int 0) O (lcg_seeded 1) =
      (r, snd (fst (@RandNormal lcg lcg_normal O (lcg_seeded 1))),
          snd (@RandNormal lcg lcg_normal O (lcg_seeded 1))) /\
    r = double_of_int 3.
Proof.
  exact (@RandNormal_zero_variance lcg lcg_normal lcg_normal_finite (double_of_int 3) O
           (lcg_seeded 1)).
Defined.

(** ** The integer drawn and the exact floor *)

Lemma round_core_next m e mrs2 e2 :
  0 < m ->
  round_core m e = (mrs2, e2) ->
  let e1 := Z.max e (fexp prec emax (Zdigits2 m + e)) in
  e1 <= e2 <= e1 + 1 /\
  m / 2 ^ (e1 - e) <= shr_m mrs2 * 2 ^ (e2 - e1) <= m / 2 ^ (e1 - e) + 1.
Proof.
  intros Hm. unfold round_core.
  destruct (shr_fexp prec emax m e loc_Exact) as [mrs1 e1] eqn:H1.
  apply shr_fexp_exact in H1 as [He1 Hs1]; [|lia].
  pose proof (round_nearest_even_shifted _ _ _ Hs1) as Hr. cbv zeta in Hr.
  set (m1 := round_nearest_even (shr_m mrs1) (loc_of_shr_record mrs1)) in *.
  destruct Hs1 as [Hq1 (r1 & Hm1 & Hr1 & _)].
  intros H2. apply shr_fexp_exact in H2 as [He2 Hs2]; [|lia].
  destruct Hs2 as [Hq2 (r2 & Hm2 & Hr2 & _)].
  destruct (Zdigits2_bounds m Hm) as [Hd Hdm].
  cbv zeta. rewrite <- He1.
  rewrite fexp_double in He1. set (d := Zdigits2 m) in *.
  assert (HP : 0 < 2 ^ (e1 - e)) by (apply Z.pow_pos_nonneg; lia).
  assert (Hdiv : m / 2 ^ (e1 - e) = shr_m mrs1).
  { symmetry. apply (Z.div_unique_pos _ _ _ r1); lia. }
  rewrite Hdiv.
  assert (Hq53 : shr_m mrs1 < 2 ^ 53).
  { assert (2 ^ d <= 2 ^ (e1 - e) * 2 ^ 53).
    { rewrite <- Z.pow_add_r by lia. apply Z.pow_le_mono_r; lia. }
    nia. }
  assert (Hfe : e1 <= e2 <= e1 + 1 /\ (e2 = e1 + 1 -> m1 = 2 ^ 53)).
  { rewrite fexp_double in He2.
    destruct (Z.eq_dec m1 0) as [Hz|Hnz]; [rewrite Hz in He2; simpl Zdigits2 in He2; lia|].
    destruct (Zdigits2_bounds m1) as [Hd1 Hdm1]; [lia|].
    destruct (Z.eq_dec m1 (2 ^ 53)) as [H53|Hn53].
    - rewrite H53 in He2. change (Zdigits2 (2 ^ 53)) with 54 in He2. lia.
    - assert (Zdigits2 m1 - 1 < 53).
      { apply (Z.pow_lt_mono_r_iff 2); [lia | lia |].
        eapply Z.le_lt_trans; [apply Hdm1|]. lia. }
      lia. }
  destruct Hfe as [Hfe H53]. split; [exact Hfe|].
  destruct (Z.eq_dec e2 e1) as [->|Hne].
  - rewrite Z.sub_diag in *. change (2 ^ 0) with 1 in *. lia.
  - assert (e2 = e1 + 1) as -> by lia. specialize (H53 eq_refl).
    replace (e1 + 1 - e1) with 1 in * by lia. change (2 ^ 1) with 2 in *. lia.
Qed.

Lemma shiftl_nonpos_div a e : e <= 0 -> Z.shiftl a e = a / 2 ^ (- e).
Proof.
  intros He. rewrite <- (Z.opp_involutive e) at 1.
  rewrite Z.shiftl_opp_r, Z.shiftr_div_pow2 by lia. reflexivity.
Qed.

Lemma div_succ_le a D : 0 < D -> a / D <= (a + 1) / D <= a / D + 1.
Proof.
  intros HD. split.
  - apply Z.div_le_mono; lia.
  - transitivity ((a + 1 * D) / D).
    + apply Z.div_le_mono; lia.
    + rewrite Z.div_add by lia. lia.
Qed.

Lemma floor_mul_near h u :
  0 < h <= INT_MAX -> in_unit_interval u = true ->
  exists v, floor_to_int (double_mul (double_of_int h) u) = Some v /\
            scaled_floor h u <= v <= scaled_floor h u + 1.
Proof.
  intros Hh Hu. unfold INT_MAX in Hh.
  assert (Hlt : match u with S754_finite _ m e => Zpos m < 2 ^ (- e) | _ => True end).
  { destruct u as [| | |[] m e]; try exact I; try discriminate.
    simpl in Hu. apply andb_prop in Hu as [_ Hu]. apply Z.ltb_lt in Hu. exact Hu. }
  destruct (double_of_int_pos h) as (mh & eh & -> & Heh & Hmh); [lia|].
  apply in_unit_interval_inv in Hu as [[s ->]|(mu & eu & -> & Heu & _)].
  { exists 0. simpl. split; [reflexivity | lia]. }
  unfold double_mul, SFmul. simpl xorb. rewrite binary_round_aux_core.
  destruct (round_core (Zpos (mh * mu)) (eh + eu)) as [mrs2 e2] eqn:Hrc.
  pose proof (round_core_next _ _ _ _ (Pos2Z.is_pos _) Hrc) as Hn. cbv zeta in Hn.
  simpl fst; simpl snd. unfold scaled_floor. cbn [cond_Zopp].
  rewrite (shiftl_nonpos_div _ eu) by lia.
  set (M := Zpos (mh * mu)) in *. set (E := eh + eu) in *.
  assert (HM : M = h * Zpos mu * 2 ^ (- eh)) by (unfold M; rewrite Pos2Z.inj_mul, Hmh; ring).
  assert (HPh : 0 < 2 ^ (- eh)) by (apply Z.pow_pos_nonneg; lia).
  assert (HPu : 0 < 2 ^ (- eu)) by (apply Z.pow_pos_nonneg; lia).
  destruct (Zdigits2_bounds M ltac:(unfold M; lia)) as [Hd Hdm].
  set (d := Zdigits2 M) in *. rewrite fexp_double in Hn.
  assert (HdE : d + E < 32).
  { assert (Hup : M < 2 ^ 31 * (2 ^ (- eu) * 2 ^ (- eh))) by nia.
    rewrite <- !Z.pow_add_r in Hup by lia.
    assert (d - 1 < 31 + (- eu + - eh)); [|unfold E; lia].
    apply (Z.pow_lt_mono_r_iff 2); lia. }
  set (e1 := Z.max E (Z.max (d + E - 53) (-1074))) in *.
  assert (He1 : E <= e1 < 0) by (unfold e1, E; lia).
  destruct Hn as [He2 Hq].
  set (q2 := shr_m mrs2) in *.
  assert (HP21 : 0 < 2 ^ (e2 - e1)) by (apply Z.pow_pos_nonneg; lia).
  assert (HP1E : 0 < 2 ^ (e1 - E)) by (apply Z.pow_pos_nonneg; lia).
  assert (HPe1 : 0 < 2 ^ (- e1)) by (apply Z.pow_pos_nonneg; lia).
  assert (Hq1 : 0 <= M / 2 ^ (e1 - E)) by (apply Z.div_pos; unfold M; lia).
  assert (Hq2 : 0 <= q2) by nia.
  (* the value returned, as a quotient *)
  assert (Hv : q2 / 2 ^ (- e2) = (q2 * 2 ^ (e2 - e1)) / 2 ^ (- e1)).
  { replace (- e1) with (- e2 + (e2 - e1)) by lia. rewrite Z.pow_add_r by lia.
    rewrite Z.div_mul_cancel_r; [reflexivity | |]; apply Z.pow_nonzero; lia. }
  (* the exact floor, as a quotient *)
  assert (HF : h * Zpos mu / 2 ^ (- eu) = M / 2 ^ (e1 - E) / 2 ^ (- e1)).
  { rewrite Z.div_div by lia. rewrite <- Z.pow_add_r by lia.
    replace (e1 - E + - e1) with (- eu + - eh) by (unfold E; lia).
    rewrite Z.pow_add_r, HM by lia.
    rewrite Z.div_mul_cancel_r; [reflexivity | |]; apply Z.pow_nonzero; lia. }
  set (F := h * Zpos mu / 2 ^ (- eu)) in *.
  assert (HFh : 0 <= F < h).
  { split; [apply Z.div_pos; nia|]. apply Z.div_lt_upper_bound; [lia|]. nia. }
  assert (Hnear : F <= q2 / 2 ^ (- e2) <= F + 1).
  { rewrite Hv, HF. pose proof (div_succ_le (M / 2 ^ (e1 - E)) (2 ^ (- e1)) HPe1) as Hs.
    split.
    - apply Z.div_le_mono; lia.
    - transitivity ((M / 2 ^ (e1 - E) + 1) / 2 ^ (- e1)); [|lia].
      apply Z.div_le_mono; lia. }
  exists (q2 / 2 ^ (- e2)). split; [|exact Hnear].
  destruct q2 as [|m2|m2] eqn:Hsm; [| |lia].
  { rewrite Z.div_0_l by (apply Z.pow_nonzero; lia). reflexivity. }
  replace (e2 <=? emax - prec) with true
    by (symmetry; apply Z.leb_le; unfold emax, prec; lia).
  unfold floor_to_int. cbn [cond_Zopp]. cbv zeta.
  rewrite shiftl_nonpos_div by lia.
  replace (INT_MIN <=? Zpos m2 / 2 ^ (- e2)) with true
    by (symmetry; apply Z.leb_le; unfold INT_MIN; lia).
  replace (Zpos m2 / 2 ^ (- e2) <=? INT_MAX) with true
    by (symmetry; apply Z.leb_le; unfold INT_MAX; lia).
  reflexivity.
Qed.

(** [RandInt] computes the floor of the scaled draw up to the rounding of
    the product: for an [int] bound [0 < hiExclusive] the value returned is
    the floor of the real number [hiExclusive * u], [u] being the double
    drawn, or that floor plus one ([three_thirds] shows the second case). *)
Theorem RandInt_near_floor `{E : UniformEngine} `{!UnitUniform E}
    hiExclusive (w : globals) :
  0 < hiExclusive <= INT_MAX ->
  exists v,
    RandInt hiExclusive w = Some (v, with_randGen (advance (randGen w)) w) /\
    scaled_floor hiExclusive (fst (Random w)) <= v
      <= scaled_floor hiExclusive (fst (Random w)) + 1.
Proof.
  intros Hh. pose proof (uniform_real_unit (randGen w)) as Hu.
  unfold RandInt, Random, advance. destruct (uniform_real (randGen w)) as [u g].
  cbn [fst snd] in *.
  destruct (floor_mul_near hiExclusive u Hh Hu) as (v & -> & Hv). exists v. auto.
Qed.

Lemma RandInt_near_floor_witness :
  exists v,
    @RandInt lcg 8 (lcg_seeded 1)
    = Some (v, @with_randGen lcg (@advance lcg 1) (lcg_seeded 1)) /\
    scaled_floor 8 (fst (@Random lcg (lcg_seeded 1))) <= v
      <= scaled_floor 8 (fst (@Random lcg (lcg_seeded 1))) + 1.
Proof.
  apply (@RandInt_near_floor lcg lcg_unit 8 (lcg_seeded 1)). unfold INT_MAX. lia.
Defined.

(** ** Ranges whose size is negative as an [int] *)

Lemma draws_total_nonpositive `{E : UniformEngine} `{!UnitUniform E} k h : forall w : globals,
  INT_MIN <= h <= 0 ->
  exists rs, draws k h w = Some (rs, with_randGen (Nat.iter k advance (randGen w)) w) /\
             Forall (fun r => h <= r <= 0) rs.
Proof.
  induction k as [|k IH]; intros w Hh.
  - exists []. simpl. rewrite with_randGen_id. auto.
  - destruct (RandInt_nonpositive h w Hh) as (r & Hr & Hrange).
    destruct (IH (with_randGen (advance (randGen w)) w) Hh) as (rs & Hd & Hall).
    exists (r :: rs). simpl. rewrite Hr. simpl. rewrite Hd. simpl.
    rewrite <- Nat.iter_succ_r. split; [reflexivity|]. constructor; [lia | exact Hall].
Qed.

Lemma to_int_negative_size n :
  is_size_t n -> to_int n < 0 -> n <= SIZE_MODULUS + to_int n.
Proof.
  unfold is_size_t, SIZE_MODULUS, to_int. intros Hn Hneg.
  pose proof (Z.div_mod (n + 2 ^ 31) (2 ^ 32) ltac:(lia)) as Hdm.
  assert ((n + 2 ^ 31) / 2 ^ 32 < 2 ^ 32 + 1)
    by (apply Z.div_lt_upper_bound; lia).
  lia.
Qed.

Lemma StronglySorted_constant a (l : list Z) :
  StronglySorted Z.lt l -> (forall v, In v l -> v = a) -> l <> [] -> l = [a].
Proof.
  intros Hs Hall Hne. destruct l as [|x l]; [congruence|].
  rewrite (Hall x) by (left; reflexivity).
  destruct l as [|y l]; [reflexivity|].
  apply StronglySorted_inv in Hs as [_ Hlt]. apply Forall_cons in Hlt as [Hxy _].
  rewrite (Hall x), (Hall y) in Hxy by (simpl; auto). lia.
Qed.

Lemma negative_draw_outside n r :
  is_size_t n -> to_int n < 0 -> to_int n <= r < 0 -> n <= to_size_t r.
Proof.
  intros Hn Hneg Hr. pose proof (to_int_negative_size n Hn Hneg) as Hwrap.
  pose proof (to_int_range n) as Htr. unfold to_size_t.
  rewrite <- (Z.mod_add r 1 SIZE_MODULUS) by (unfold SIZE_MODULUS; lia).
  rewrite Z.mod_small; unfold SIZE_MODULUS, INT_MIN in *; lia.
Qed.

Lemma sparse_result_zero_draws lo n (rs : list Z) :
  0 < n -> rs <> [] -> Forall (fun r => r = 0) rs ->
  sparse_result lo n (to_size_t <$> rs) = [lo].
Proof.
  intros Hn Hne Hzero.
  assert (Hoffs : Forall (fun o => 0 <= o < n) (to_size_t <$> rs)).
  { apply Forall_fmap. eapply Forall_impl; [exact Hzero|]. simpl. intros r ->.
    change (to_size_t 0) with 0. lia. }
  apply StronglySorted_constant.
  - apply sparse_result_sorted.
  - intros v Hv. apply In_sparse_result in Hv as (o & Ho & ->); [|exact Hoffs].
    apply list_elem_of_In, list_elem_of_fmap in Ho as (r & -> & Hr).
    apply list_elem_of_In in Hr.
    rewrite (proj1 (List.Forall_forall _ _) Hzero r Hr). change (to_size_t 0) with 0. lia.
  - rewrite sparse_result_nil by (lia || exact Hoffs).
    destruct rs; [congruence | discriminate].
Qed.

(** A sparse call that asks for at least one sample over a range whose
    size is negative once converted to [int]. Every draw lies in
    [[(int) rangeSize, 0]]; a negative draw, converted to [size_t], is an
    index at or beyond the end of the counter column. So the call
    increments a counter outside the column, which is where the model
    stops, as soon as one draw is not 0; and when every draw is 0 it
    returns the single value [loInclusive], the generator advanced once
    per draw. *)
Theorem sparse_range_negative_size `{E : UniformEngine} `{!UnitUniform E}
    lo hi maxN ds (w : globals) :
  is_size_t lo -> is_size_t hi -> lo <= hi ->
  0 < maxN < hi - lo -> to_int (hi - lo) < 0 ->
  exists rs,
    draws (Z.to_nat maxN) (to_int (hi - lo)) w
    = Some (rs, with_randGen (Nat.iter (Z.to_nat maxN) advance (randGen w)) w) /\
    Forall (fun r => to_int (hi - lo) <= r <= 0) rs /\
    Forall (fun r => r < 0 -> hi - lo <= to_size_t r) rs /\
    ObtainDistinctSamples lo hi maxN ds w =
      if forallb (Z.eqb 0) rs
      then Some ([lo], with_randGen (Nat.iter (Z.to_nat maxN) advance (randGen w)) w)
      else None.
Proof.
  intros Hlo Hhi Hle Hsparse Hneg.
  assert (Hn : is_size_t (hi - lo)) by (unfold is_size_t in *; lia).
  pose proof (to_int_range (hi - lo)) as Htr.
  destruct (draws_total_nonpositive (Z.to_nat maxN) (to_int (hi - lo)) w)
    as (rs & Hd & Hrs); [lia|].
  pose proof (draws_inv _ _ _ _ _ Hd) as [Hlen _].
  assert (Hout : Forall (fun r => r < 0 -> hi - lo <= to_size_t r) rs).
  { eapply Forall_impl; [exact Hrs|]. simpl. intros r Hr Hlt.
    apply negative_draw_outside; [assumption | assumption | lia]. }
  exists rs. split; [exact Hd|]. split; [exact Hrs|]. split; [exact Hout|].
  rewrite ObtainDistinctSamples_sparse by (assumption || lia).
  rewrite Hd. cbn [mbind option_bind].
  assert (Hsame : forallb (fun o => o <? hi - lo) (to_size_t <$> rs)
                  = forallb (Z.eqb 0) rs).
  { apply eq_iff_eq_true. rewrite forallb_ltb, forallb_forall, Forall_fmap.
    rewrite !List.Forall_forall. split; intros Hall r Hr.
    - specialize (Hall r Hr). simpl in Hall.
      pose proof (proj1 (List.Forall_forall _ _) Hrs r Hr) as Hb.
      pose proof (proj1 (List.Forall_forall _ _) Hout r Hr) as Ho.
      simpl in Hb, Ho. apply Z.eqb_eq. lia.
    - apply Hall, Z.eqb_eq in Hr. subst r. simpl. change (to_size_t 0) with 0. lia. }
  rewrite Hsame. destruct (forallb (Z.eqb 0) rs) eqn:Hz; [|reflexivity].
  rewrite sparse_result_zero_draws; [reflexivity | lia | |].
  - destruct rs; [simpl in Hlen; lia | discriminate].
  - apply List.Forall_forall. intros r Hr.
    rewrite forallb_forall in Hz. apply Hz, Z.eqb_eq in Hr. lia.
Qed.

Lemma sparse_range_negative_size_witness :
  to_int (2 ^ 31 - 0) = - 2 ^ 31 /\
  @ObtainDistinctSamples lcg 0 (2 ^ 31) 1 [] (lcg_seeded 2088216195)
  = Some ([0], @with_randGen lcg 0 (lcg_seeded 2088216195)) /\
  @ObtainDistinctSamples lcg 0 (2 ^ 31) 1 [] (lcg_seeded 1) = None.
Proof.
  split; [reflexivity|].
  assert (Hs : is_size_t 0 /\ is_size_t (2 ^ 31))
    by (unfold is_size_t, SIZE_MODULUS; lia).
  destruct Hs as [H0 H1].
  assert (Hd0 : @draws lcg (Z.to_nat 1) (to_int (2 ^ 31 - 0)) (lcg_seeded 2088216195)
                = Some ([0], @with_randGen lcg 0 (lcg_seeded 2088216195)))
    by reflexivity.
  assert (Hd1 : @draws lcg (Z.to_nat 1) (to_int (2 ^ 31 - 0)) (lcg_seeded 1)
                = Some ([-1103527590], @with_randGen lcg (lcg_next 1) (lcg_seeded 1)))
    by reflexivity.
  split.
  - destruct (@sparse_range_negative_size lcg lcg_unit 0 (2 ^ 31) 1 []
                (lcg_seeded 2088216195) H0 H1 ltac:(lia) ltac:(lia) ltac:(reflexivity))
      as (rs & Hd & _ & _ & Hcall).
    rewrite Hd0 in Hd. injection Hd as <-. rewrite Hcall. reflexivity.
  - destruct (@sparse_range_negative_size lcg lcg_unit 0 (2 ^ 31) 1 []
                (lcg_seeded 1) H0 H1 ltac:(lia) ltac:(lia) ltac:(reflexivity))
      as (rs & Hd & _ & _ & Hcall).
    rewrite Hd1 in Hd. injection Hd as <-. rewrite Hcall. reflexivity.
Defined.
